(** * attachments-extractor: a shallow embedding and its properties

    The program reads e-mail files, selects the parts that are attachments
    and writes them below [attachments/].  Python objects are modelled as
    follows.

    - A [str] is a list of Unicode code points ([N]).
    - A message is a record of what the accessors of [email.message] return.
    - The file system is a finite map from normalised locations to nodes.
    - Effects (file system, the two output streams, the random generator and
      exceptions) are threaded through a state-and-exception monad [M].

    What the model leaves out.  The accessors of a parsed message and the
    writes to the two output streams are taken to return, so the properties
    below say what a run has done when it returns or is caught in a loop,
    and none of them says that a run ends without an exception.  Every name
    is taken to be one that the file system accepts, a location is
    normalised by its text, and there are no symbolic links: the properties
    about written files are stated for the path that is opened. *)

From Stdlib Require Import ZArith NArith List Ascii String Lia.
From stdpp Require Import base option list gmap.

Set Default Proof Using "Type".

(** ** Python strings *)

Abbreviation char := N (only parsing).
Abbreviation str := (list N) (only parsing).
Abbreviation bytes := (list N) (only parsing).

(** [u] turns a literal into the Python [str] with the same characters. *)
Definition u (s : string) : str := map N_of_ascii (list_ascii_of_string s).
Arguments u _%_string.

Definition str_eqb (a b : str) : bool := bool_decide (a = b).

(** [str(n)] for a natural number: its decimal digits. *)
Fixpoint str_of_uint (d : Decimal.uint) : str :=
  match d with
  | Decimal.Nil => []
  | Decimal.D0 d => 48%N :: str_of_uint d
  | Decimal.D1 d => 49%N :: str_of_uint d
  | Decimal.D2 d => 50%N :: str_of_uint d
  | Decimal.D3 d => 51%N :: str_of_uint d
  | Decimal.D4 d => 52%N :: str_of_uint d
  | Decimal.D5 d => 53%N :: str_of_uint d
  | Decimal.D6 d => 54%N :: str_of_uint d
  | Decimal.D7 d => 55%N :: str_of_uint d
  | Decimal.D8 d => 56%N :: str_of_uint d
  | Decimal.D9 d => 57%N :: str_of_uint d
  end.

Definition str_of_nat (n : nat) : str := str_of_uint (Nat.to_uint n).

(** ** [sanitize_filename] on a [str] (line 29)

    The pattern is one character class; [re.sub] replaces every match, that
    is every single character of the class, by an underscore. *)

(** The members of the class, in the order in which the pattern lists them;
    code point 34 is the double quote, which the pattern writes escaped. *)
Definition reserved : str :=
  u "/\|[]{}:<>+=;,?!*" ++ [34%N] ++ u "~#$%&@'".

Definition is_reserved (c : char) : bool := existsb (N.eqb c) reserved.

Definition underscore : char := 95%N.

Definition re_sub_reserved (filename : str) : str :=
  map (fun c => if is_reserved c then underscore else c) filename.

(** The set as the specification lists it, by code point: slash, backslash,
    bar, the square and curly brackets, colon, the angle brackets, plus,
    equals, semicolon, comma, question and exclamation mark, star, double
    quote, tilde, hash, dollar, percent, ampersand, at, single quote. *)
Definition spec_reserved_set : list N :=
  [47; 92; 124; 91; 93; 123; 125; 58; 60; 62; 43; 61; 59; 44; 63; 33; 42;
   34; 126; 35; 36; 37; 38; 64; 39]%N.


(** ** [os.path] on POSIX (the functions the program calls) *)

Definition sep : char := 47%N.
Definition extsep : char := 46%N.

(** [p.rfind(c)]: the index of the last occurrence of [c], or -1. *)
Fixpoint rfind (c : char) (p : str) : Z :=
  match p with
  | [] => (-1)%Z
  | x :: p' =>
      let r := rfind c p' in
      if (0 <=? r)%Z then (r + 1)%Z
      else if N.eqb x c then 0%Z else (-1)%Z
  end.

(** The slices [p[:i]] and [p[i:]] for an index [0 <= i]. *)
Definition slice_to (p : str) (i : Z) : str := take (Z.to_nat i) p.
Definition slice_from (p : str) (i : Z) : str := drop (Z.to_nat i) p.

(** [os.path.splitext]: the extension starts at the last dot of the last
    component, unless only dots precede it there. The loop that skips the
    leading dots returns the split at the first character that is no dot. *)
Definition splitext (p : str) : str * str :=
  let sepIndex := rfind sep p in
  let dotIndex := rfind extsep p in
  if (sepIndex <? dotIndex)%Z then
    let filenameIndex := (sepIndex + 1)%Z in
    if existsb (fun ch => negb (N.eqb ch extsep))
         (slice_to (slice_from p filenameIndex) (dotIndex - filenameIndex))
    then (slice_to p dotIndex, slice_from p dotIndex)
    else (p, [])
  else (p, []).

(** [os.path.basename]. *)
Definition basename (p : str) : str := slice_from p (rfind sep p + 1).

Definition startswith_sep (p : str) : bool :=
  match p with c :: _ => N.eqb c sep | [] => false end.

Definition endswith_sep (p : str) : bool :=
  match last p with Some c => N.eqb c sep | None => false end.

(** [os.path.join(a, b)]. *)
Definition join (a b : str) : str :=
  if startswith_sep b then b
  else if bool_decide (a = []) || endswith_sep a then a ++ b
  else a ++ [sep] ++ b.

(** ** The file system

    A location is a normalised path: whether it is absolute, and its
    components from the innermost outwards. Components that are empty or a
    single dot are dropped and a double dot cancels the component before it,
    as [os.path.normpath] does (there are no symbolic links). *)

Abbreviation Loc := (bool * list (list N))%type (only parsing).

Fixpoint split_sep (p : str) : list str :=
  match p with
  | [] => [[]]
  | x :: p' =>
      if N.eqb x sep then [] :: split_sep p'
      else match split_sep p' with
           | c :: cs => (x :: c) :: cs
           | [] => [[x]]
           end
  end.

Definition dot : str := u ".".
Definition dotdot : str := u "..".

Definition norm_step (absolute : bool) (stack : list str) (comp : str)
  : list str :=
  if bool_decide (comp = [] \/ comp = dot) then stack
  else if bool_decide (comp = dotdot) then
    match stack with
    | [] => if absolute then [] else [dotdot]
    | top :: rest => if bool_decide (top = dotdot) then dotdot :: stack else rest
    end
  else comp :: stack.

Definition locate (p : str) : Loc :=
  let absolute := startswith_sep p in
  (absolute, fold_left (norm_step absolute) (split_sep p) []).

(** What a file holds: bytes written through a binary handle, or text
    written through a text handle. *)
Inductive Content : Type :=
  | Binary (data : bytes)
  | Text (s : str).

Inductive Node : Type :=
  | Dir
  | File (c : Content).

(** The working directory, its ancestors and the root always exist. *)
Definition is_root (l : Loc) : bool :=
  forallb (fun c => bool_decide (c = dotdot)) (snd l).

Definition node_at (f : gmap Loc Node) (l : Loc) : option Node :=
  if is_root l then Some Dir else f !! l.

(** A path whose last component is empty (a trailing separator), a dot or a
    double dot can only name a directory. *)
Definition names_directory (p : str) : bool :=
  match last (split_sep p) with
  | Some c => bool_decide (c = [] \/ c = dot \/ c = dotdot)
  | None => true
  end.

(** What the path names, if anything. *)
Definition stat (f : gmap Loc Node) (p : str) : option Node :=
  if bool_decide (p = []) then None
  else
    let n := node_at f (locate p) in
    if names_directory p
    then match n with Some Dir => Some Dir | _ => None end
    else n.

(** ** Exceptions, the world and the monad *)

Inductive ExcType : Type :=
  | TypeError | IndexError | FileNotFoundError | IsADirectoryError
  | NotADirectoryError | FileExistsError | PermissionError | OtherError.

(** An exception (all of them derive from [Exception]) and its [str()]. *)
Record Exception : Type := mkExc { exc_type : ExcType; exc_str : str }.

Record World : Type := mkWorld {
  fs : gmap Loc Node;
  stdout : list str;
  stderr : list str;
  (** the outcomes of the random generator, and how many were consumed *)
  random_tape : nat -> N;
  random_pos : nat;
  (** the error, if any, with which an existing regular file refuses to be
      opened for reading (no permission, an input/output error) *)
  read_error : Loc -> option Exception
}.

Definition set_fs (f : gmap Loc Node) (w : World) : World :=
  mkWorld f (stdout w) (stderr w) (random_tape w) (random_pos w)
    (read_error w).

(** A computation returns, raises, or is still running when the fuel of its
    loops is used up. *)
Inductive Outcome (A : Type) : Type :=
  | Ret (a : A)
  | Raise (e : Exception)
  | Diverge.
Arguments Ret {A} a.
Arguments Raise {A} e.
Arguments Diverge {A}.

Definition M (A : Type) : Type := World -> Outcome A * World.

Definition ret {A} (a : A) : M A := fun w => (Ret a, w).
Definition raise {A} (e : Exception) : M A := fun w => (Raise e, w).
Definition diverge {A} : M A := fun w => (Diverge, w).

Definition bind {A B} (m : M A) (k : A -> M B) : M B :=
  fun w =>
    match m w with
    | (Ret a, w') => k a w'
    | (Raise e, w') => (Raise e, w')
    | (Diverge, w') => (Diverge, w')
    end.

(** [try: body  except Exception as err: handler(err)]. *)
Definition try_except {A} (body : M A) (handler : Exception -> M A) : M A :=
  fun w =>
    match body w with
    | (Raise e, w') => handler e w'
    | r => r
    end.

Notation "'do' x <- m ; k" := (bind m (fun x => k))
  (at level 10, x name, m at level 100, k at level 200).
Notation "'run' m ; k" := (bind m (fun _ => k))
  (at level 10, m at level 100, k at level 200).

(** [for x in xs: body(x)]. *)
Fixpoint for_each {A} (xs : list A) (body : A -> M unit) : M unit :=
  match xs with
  | [] => ret tt
  | x :: xs' => run body x; for_each xs' body
  end.

(** [[m for _ in range(n)]]. *)
Fixpoint repeat_m {A} (n : nat) (m : M A) : M (list A) :=
  match n with
  | O => ret []
  | S n' => do x <- m; do xs <- repeat_m n' m; ret (x :: xs)
  end.

(** [print(line)] and [print(line, file=sys.stderr)]. *)
Definition print (line : str) : M unit :=
  fun w => (Ret tt, mkWorld (fs w) (stdout w ++ [line]) (stderr w)
                      (random_tape w) (random_pos w) (read_error w)).

Definition print_err (line : str) : M unit :=
  fun w => (Ret tt, mkWorld (fs w) (stdout w) (stderr w ++ [line])
                      (random_tape w) (random_pos w) (read_error w)).

(** [random.choice(seq)]. *)
Definition random_choice (seq : str) : M char :=
  fun w =>
    match seq with
    | [] => (Raise (mkExc IndexError (u "Cannot choose from an empty sequence")), w)
    | c :: _ =>
        let i := (N.to_nat (random_tape w (random_pos w)) mod length seq)%nat in
        (Ret (nth i seq c),
         mkWorld (fs w) (stdout w) (stderr w) (random_tape w)
           (S (random_pos w)) (read_error w))
    end.

(** ** File operations *)

Definition os_path_exists (p : str) : M bool :=
  fun w => (Ret (match stat (fs w) p with Some _ => true | None => false end), w).

Inductive Mode : Type := ModeW | ModeWB.

Definition empty_content (m : Mode) : Content :=
  match m with ModeW => Text [] | ModeWB => Binary [] end.

Definition errno_msg (what : string) (p : str) : str :=
  u what ++ u ": '" ++ p ++ u "'".

(** [open(p, "w")] and [open(p, "wb")]: the file is created or truncated;
    the handle is the location of the file. A path that ends in a separator
    is refused as a directory; one that ends in a dot or a double dot is
    refused according to what it leads to. Every name is taken to be one
    that the file system accepts (no limit on its length, no character it
    refuses). *)
Definition open_write (p : str) (m : Mode) : M Loc :=
  fun w =>
    if bool_decide (p = []) then
      (Raise (mkExc FileNotFoundError
                (errno_msg "[Errno 2] No such file or directory" p)), w)
    else if names_directory p then
      if endswith_sep p then
        (Raise (mkExc IsADirectoryError
                  (errno_msg "[Errno 21] Is a directory" p)), w)
      else
        match node_at (fs w) (locate p) with
        | Some Dir =>
            (Raise (mkExc IsADirectoryError
                      (errno_msg "[Errno 21] Is a directory" p)), w)
        | Some (File _) =>
            (Raise (mkExc NotADirectoryError
                      (errno_msg "[Errno 20] Not a directory" p)), w)
        | None =>
            (Raise (mkExc FileNotFoundError
                      (errno_msg "[Errno 2] No such file or directory" p)), w)
        end
    else
      let l := locate p in
      match node_at (fs w) l with
      | Some Dir =>
          (Raise (mkExc IsADirectoryError
                    (errno_msg "[Errno 21] Is a directory" p)), w)
      | Some (File _) => (Ret l, set_fs (<[l := File (empty_content m)]> (fs w)) w)
      | None =>
          match node_at (fs w) (fst l, tail (snd l)) with
          | Some Dir =>
              (Ret l, set_fs (<[l := File (empty_content m)]> (fs w)) w)
          | Some (File _) =>
              (Raise (mkExc NotADirectoryError
                        (errno_msg "[Errno 20] Not a directory" p)), w)
          | None =>
              (Raise (mkExc FileNotFoundError
                        (errno_msg "[Errno 2] No such file or directory" p)), w)
          end
      end.

(** Writing through a handle of a file that was just truncated. *)
Definition file_write (h : Loc) (c : Content) : M unit :=
  fun w => (Ret tt, set_fs (<[h := File c]> (fs w)) w).

(** [open(p, "rb")] followed by reading the whole file. An existing
    regular file is read unless the world refuses it; a path through a
    regular file is no directory; anything else that names nothing is not
    found. *)
Definition open_read (p : str) : M Content :=
  fun w =>
    match stat (fs w) p with
    | Some (File c) =>
        match read_error w (locate p) with
        | Some e => (Raise e, w)
        | None => (Ret c, w)
        end
    | Some Dir =>
        (Raise (mkExc IsADirectoryError
                  (errno_msg "[Errno 21] Is a directory" p)), w)
    | None =>
        let l := locate p in
        match (if names_directory p then node_at (fs w) l
               else node_at (fs w) (fst l, tail (snd l))) with
        | Some (File _) =>
            (Raise (mkExc NotADirectoryError
                      (errno_msg "[Errno 20] Not a directory" p)), w)
        | _ =>
            (Raise (mkExc FileNotFoundError
                      (errno_msg "[Errno 2] No such file or directory" p)), w)
        end
    end.

(** [os.makedirs(p, exist_ok=True)] on a location: the ancestors are made
    from the outermost inwards, and what was made before an error stays.
    A regular file at the location itself ([final]) is the error that the
    file exists; a regular file at an ancestor is the error that it is no
    directory. *)
Fixpoint mkdirs (final absolute : bool) (stack : list str) (p : str)
    (f : gmap Loc Node) : option Exception * gmap Loc Node :=
  match stack with
  | [] => (None, f)
  | _ :: parent =>
      match mkdirs false absolute parent p f with
      | (Some e, f') => (Some e, f')
      | (None, f') =>
          match node_at f' (absolute, stack) with
          | Some Dir => (None, f')
          | Some (File _) =>
              (Some (if final
                     then mkExc FileExistsError
                            (errno_msg "[Errno 17] File exists" p)
                     else mkExc NotADirectoryError
                            (errno_msg "[Errno 20] Not a directory" p)), f')
          | None => (None, <[(absolute, stack) := Dir]> f')
          end
      end
  end.

Definition os_makedirs (p : str) : M unit :=
  fun w =>
    if bool_decide (p = []) then
      (Raise (mkExc FileNotFoundError
                (errno_msg "[Errno 2] No such file or directory" p)), w)
    else
      match mkdirs true (fst (locate p)) (snd (locate p)) p (fs w) with
      | (Some e, f') => (Raise e, set_fs f' w)
      | (None, f') => (Ret tt, set_fs f' w)
      end.

(** ** Messages

    A message is what the parser hands over: the record of what its
    accessors return. [get_payload_0] is [get_payload(0)], which raises on a
    message without sub-parts; [get_payload_decode] is
    [get_payload(decode=True)], which is [None] on a multipart message;
    [flattened] is the text that [Generator.flatten] emits for the message
    and [flatten_raises] the exception that ends it, if any. *)
#[warnings="-register-all"]
Inductive Message : Type := mkMessage {
  is_multipart : bool;
  is_attachment : bool;
  get_content_disposition : option str;
  get_content_type : str;
  get_filename : option str;
  iter_attachments : list Message;
  get_payload_0 : Exception + Message;
  get_payload_decode : option bytes;
  flattened : str;
  flatten_raises : option Exception
}.

(** ** The program *)

Definition ascii_letters : str :=
  u "abcdefghijklmnopqrstuvwxyzABCDEFGHIJKLMNOPQRSTUVWXYZ".
Definition digits : str := u "0123456789".

(** The random suffix of line 23. *)
Definition random_suffix : M str :=
  repeat_m 5 (random_choice (ascii_letters ++ digits)).

(** The loop of [get_unique_path] (lines 21-25); [fuel] bounds the number of
    candidates it may try. *)
Fixpoint unique_path_loop (fuel : nat) (filename extension path : str)
  : M str :=
  do occupied <- os_path_exists path;
  if occupied then
    match fuel with
    | O => diverge
    | S fuel' =>
        do suffix <- random_suffix;
        unique_path_loop fuel' filename extension
          (filename ++ u "_" ++ suffix ++ extension)
    end
  else ret path.

Definition get_unique_path (fuel : nat) (path : str) : M str :=
  let '(filename, extension) := splitext path in
  unique_path_loop fuel filename extension path.

(** What [re.sub] raises when its subject is [None]. *)
Definition re_sub_type_error : Exception :=
  mkExc TypeError (u "expected string or bytes-like object, got 'NoneType'").

(** [sanitize_filename] (lines 28-29). *)
Definition sanitize_filename (filename : option str) : M str :=
  match filename with
  | Some s => ret (re_sub_reserved s)
  | None => raise re_sub_type_error
  end.

(** [attachment.get_payload(0)]. *)
Definition get_payload_at_0 (attachment : Message) : M Message :=
  match get_payload_0 attachment with
  | inl e => raise e
  | inr data => ret data
  end.

(** [generator.Generator(file).flatten(data)]. *)
Definition generator_flatten (file : Loc) (data : Message) : M unit :=
  run file_write file (Text (flattened data));
  match flatten_raises data with
  | Some e => raise e
  | None => ret tt
  end.

(** [file.write(data)] on a binary handle. *)
Definition write_bytes (file : Loc) (data : option bytes) : M unit :=
  match data with
  | Some b => file_write file (Binary b)
  | None =>
      raise (mkExc TypeError
               (u "a bytes-like object is required, not 'NoneType'"))
  end.

(** The second half of [save_attachment] (lines 39-47). *)
Definition write_payload (path : str) (attachment : Message) : M unit :=
  if str_eqb (get_content_type attachment) (u "message/rfc822") then
    do data <- get_payload_at_0 attachment;
    do file <- open_write path ModeW;
    generator_flatten file data
  else
    let data := get_payload_decode attachment in
    do file <- open_write path ModeWB;
    write_bytes file data.

(** [save_attachment] (lines 32-47). *)
Definition save_attachment (fuel : nat) (location : str)
    (attachment : Message) (keep : bool) : M unit :=
  do filename <- sanitize_filename (get_filename attachment);
  let path := join location filename in
  do path <- (if keep then get_unique_path fuel path else ret path);
  write_payload path attachment.

(** [get_attachments] (lines 50-54); a function that falls off its end
    returns [None]. *)
Definition get_attachments (msg : Message) : option (list Message) :=
  if is_multipart msg then Some (iter_attachments msg)
  else if is_attachment msg
          || bool_decide (get_content_disposition msg = Some (u "inline"))
  then Some [msg]
  else None.

(** [glob.glob(pattern)]. A pattern without a star, a question mark or an
    opening bracket is taken literally: the result is the pattern itself if
    it names something, and nothing otherwise. What a pattern with wildcards
    expands to is left to [wildcards]. *)
Definition has_magic (s : str) : bool :=
  existsb (fun c => existsb (N.eqb c) (u "*?[")) s.

Definition glob_glob (wildcards : gmap Loc Node -> str -> list str)
    (f : gmap Loc Node) (pattern : str) : list str :=
  if has_magic pattern then wildcards f pattern
  else match stat f pattern with
       | Some _ => [pattern]
       | None => []
       end.

Record Args : Type := mkArgs {
  email : list str;
  organize : bool;
  keep : bool
}.

Section Main.

(** The collaborators of [main]: what [glob.glob] returns for a pattern
    with wildcards, and [email.message_from_binary_file] with the default
    policy. *)
Variable wildcards : gmap Loc Node -> str -> list str.
Variable message_from_binary_file : Content -> Exception + Message.

(** The bound on the candidates each call of [get_unique_path] may try. *)
Variable fuel : nat.

(** Lines 80-81. *)
Definition load_message (eml : str) : M Message :=
  do file <- open_read eml;
  match message_from_binary_file file with
  | inl e => raise e
  | inr msg => ret msg
  end.

(** Lines 93-102. *)
Definition output_location (args : Args) (eml : str) : M str :=
  let location :=
    if negb (organize args) then u "attachments"
    else join (u "attachments") (basename (fst (splitext eml))) in
  do location <- (if organize args && keep args
                  then get_unique_path fuel location else ret location);
  run os_makedirs location;
  ret location.

(** Lines 104-105. *)
Definition save_all (args : Args) (location : str)
    (attachments : list Message) : M unit :=
  for_each attachments
    (fun attachment => save_attachment fuel location attachment (keep args)).

(** The body of the second [try] (lines 93-107). *)
Definition extract (args : Args) (eml : str) (attachments : list Message)
  : M unit :=
  do location <- output_location args eml;
  run save_all args location attachments;
  print (eml ++ u " (" ++ str_of_nat (length attachments) ++ u ")").

Definition read_error_line (eml : str) : str :=
  u "Error: " ++ eml ++ u " <failed to read file>".

Definition write_error_line (eml : str) (err : Exception) : str :=
  u "Error: " ++ basename eml ++ u " <" ++ exc_str err ++ u ">".

(** One turn of the loop over the input files (lines 79-110); [continue]
    ends the turn. *)
Definition process (args : Args) (eml : str) : M unit :=
  do loaded <- try_except (do msg <- load_message eml; ret (Some msg))
                 (fun _ => run print_err (read_error_line eml); ret None);
  match loaded with
  | None => ret tt
  | Some msg =>
      match get_attachments msg with
      | Some (a :: rest) =>
          try_except (extract args eml (a :: rest))
            (fun err => print_err (write_error_line eml err))
      | _ => print (eml ++ u " (0)")
      end
  end.

(** [main] (lines 74-110), after the arguments are parsed. *)
Definition main (args : Args) : M unit :=
  do emls <- (fun w =>
                (Ret (flat_map (glob_glob wildcards (fs w)) (email args)), w));
  for_each emls (process args).

End Main.

(** ** Notions used in the statements *)

Definition alnum : str := ascii_letters ++ digits.

(** The character that the [i]-th outcome of the generator selects. *)
Definition pick (w : World) (i : nat) : char :=
  nth (N.to_nat (random_tape w i) mod length alnum) alnum 97%N.

(** The suffix made of the five outcomes from position [pos] on. *)
Definition suffix_from (w : World) (pos : nat) : str :=
  map (pick w) (seq pos 5).

(** The suffix of the [k]-th candidate that a call started in [w] draws. *)
Definition suffix_at (w : World) (k : nat) : str :=
  suffix_from w (5 * k + random_pos w).

(** The [k]-th candidate that [get_unique_path path] builds in [w]. *)
Definition candidate (path : str) (w : World) (k : nat) : str :=
  fst (splitext path) ++ u "_" ++ suffix_at w k ++ snd (splitext path).

(** The world after [n] more outcomes of the generator were consumed. *)
Definition advance (n : nat) (w : World) : World :=
  mkWorld (fs w) (stdout w) (stderr w) (random_tape w) (n + random_pos w)
    (read_error w).

Definition is_alnum (c : char) : Prop := In c alnum.

(** [open(p, mode)] for writing succeeds when [p] names a regular file, or
    names nothing inside an existing directory. *)
Definition can_open_for_writing (f : gmap Loc Node) (p : str) : bool :=
  negb (bool_decide (p = [])) && negb (names_directory p) &&
  match node_at f (locate p) with
  | Some (File _) => true
  | Some Dir => false
  | None =>
      match node_at f (fst (locate p), tail (snd (locate p))) with
      | Some Dir => true
      | _ => false
      end
  end.

Definition is_rfc822 (attachment : Message) : bool :=
  str_eqb (get_content_type attachment) (u "message/rfc822").

(** The world with one more line on the error stream. *)
Definition with_error_line (line : str) (w : World) : World :=
  mkWorld (fs w) (stdout w) (stderr w ++ [line]) (random_tape w) (random_pos w)
    (read_error w).

(** The directory part that [join] puts before a relative name. *)
Definition dir_prefix (a : str) : str :=
  if bool_decide (a = []) || endswith_sep a then a else a ++ [sep].

(** [grows f f']: [f'] keeps every entry of [f], and every file of [f'] is
    a file of [f]: only directories were added. *)
Definition grows (f f' : gmap Loc Node) : Prop :=
  f ⊆ f' /\ forall l c, f' !! l = Some (File c) -> f !! l = Some (File c).

(** [adds_files_in d f f']: [f'] keeps every entry of [f], and every file
    of [f'] is a file of [f] or lies right inside the directory [d]. *)
Definition adds_files_in (d : Loc) (f f' : gmap Loc Node) : Prop :=
  f ⊆ f' /\
  forall l c, f' !! l = Some (File c) ->
    f !! l = Some (File c) \/ exists y, l = (fst d, y :: snd d).

(** A location right inside a directory that does not exist in [f0]. *)
Definition in_new_directory (f0 : gmap Loc Node) (l : Loc) : Prop :=
  exists absolute name dir,
    l = (absolute, name :: dir) /\ node_at f0 (absolute, dir) = None.

(** What holds of the file system during a run with [organize] and [keep]
    that started in [f0]: nothing of [f0] is lost or changed, and every
    other file lies in a directory that [f0] did not have. *)
Definition run_invariant (f0 f : gmap Loc Node) : Prop :=
  f0 ⊆ f /\
  forall l c, f !! l = Some (File c) ->
    f0 !! l = Some (File c) \/ in_new_directory f0 l.

(** ** Example worlds and messages *)

(** A generator whose [n]-th outcome is [n]: its first suffix is [abcde]. *)
Definition counting_tape (n : nat) : N := N.of_nat n.

(** A world in which every regular file can be read. *)
Definition world_of (f : gmap Loc Node) : World :=
  mkWorld f [] [] counting_tape 0 (fun _ => None).

(** [attachments/] holds [report.docx]. *)
Definition fs_report : gmap Loc Node :=
  <[(false, [u "report.docx"; u "attachments"]) := File (Binary [1; 2; 3]%N)]>
    (<[(false, [u "attachments"]) := Dir]> ∅).

(** A part that is an attachment with the given file name and bytes. *)
Definition plain_part (name : option str) (data : bytes) : Message :=
  mkMessage false true (Some (u "attachment")) (u "application/octet-stream")
    name []
    (inl (mkExc TypeError (u "Expected list, got <class 'str'>")))
    (Some data) [] None.

(** A message that the generator flattens to [text]. *)
Definition nested_message (text : str) : Message :=
  mkMessage false false None (u "text/plain") None []
    (inl (mkExc TypeError (u "Expected list, got <class 'str'>")))
    (Some []) text None.

(** A part that carries a forwarded message whose text is [text]. *)
Definition forwarded_part (name : option str) (text : str) : Message :=
  mkMessage true true (Some (u "attachment")) (u "message/rfc822") name []
    (inr (nested_message text)) None [] None.

(** No pattern with wildcards matches anything. *)
Definition no_wildcards (f : gmap Loc Node) (pattern : str) : list str := [].

(** A message with three attachments, the second without a file name. *)
Definition three_parts : list Message :=
  [plain_part (Some (u "a.txt")) [10%N];
   plain_part None [11%N];
   plain_part (Some (u "c.txt")) [12%N]].

Definition message_one : Message :=
  mkMessage true false None (u "multipart/mixed") None three_parts
    (inr (plain_part (Some (u "a.txt")) [10%N])) None [] None.

(** A message with the single attachment [report.docx]. *)
Definition message_two : Message :=
  mkMessage true false None (u "multipart/mixed") None
    [plain_part (Some (u "report.docx")) [9%N; 9%N]]
    (inr (plain_part (Some (u "report.docx")) [9%N; 9%N])) None [] None.

(** A parser for the example inputs: a file holding the byte 1 is
    [message_one], a file holding the byte 2 is [message_two], anything else
    is rejected. *)
Definition example_parser (c : Content) : Exception + Message :=
  match c with
  | Binary [1%N] => inr message_one
  | Binary [2%N] => inr message_two
  | _ => inl (mkExc OtherError (u "not a message"))
  end.

(** The working directory holds [bad.eml], [one.eml] and [two.eml]. *)
Definition fs_inbox : gmap Loc Node :=
  <[(false, [u "bad.eml"]) := File (Binary [])]>
    (<[(false, [u "one.eml"]) := File (Binary [1%N])]>
       (<[(false, [u "two.eml"]) := File (Binary [2%N])]> ∅)).

Definition flat_args (patterns : list str) : Args := mkArgs patterns false false.
Definition organize_keep_args (patterns : list str) : Args :=
  mkArgs patterns true true.

(** The worlds that processing [one.eml] with the default flags goes
    through: after the output directory is made, and after the first
    attachment is saved. *)
Definition world_inbox : World := world_of fs_inbox.

Definition world_inbox_dir : World :=
  snd (output_location 0 (flat_args [u "one.eml"]) (u "one.eml") world_inbox).

Definition world_inbox_saved : World :=
  snd (save_all 0 (flat_args [u "one.eml"]) (u "attachments")
         [plain_part (Some (u "a.txt")) [10%N]] world_inbox_dir).

(** The world after a first run on [two.eml] with both flags. *)
Definition world_after_first_run : World :=
  snd (main no_wildcards example_parser 1
         (organize_keep_args [u "two.eml"]) world_inbox).

(** A name that is one ordinary path component. *)
Definition plain_name (y : str) : Prop :=
  ~ In sep y /\ y <> [] /\ y <> dot /\ y <> dotdot.


Definition not_reserved (c : char) : Prop := ~ In c spec_reserved_set.

(** [same_streams w w']: nothing was printed between [w] and [w']. *)
Definition same_streams (w w' : World) : Prop :=
  stdout w' = stdout w /\ stderr w' = stderr w.

(** [same_random w w']: the random generator was not consulted. *)
Definition same_random (w w' : World) : Prop :=
  random_tape w' = random_tape w /\ random_pos w' = random_pos w.

(** The line that a turn prints on success. *)
Definition summary_line (eml : str) (n : nat) : str :=
  eml ++ u " (" ++ str_of_nat n ++ u ")".

(** The name under which an attachment is saved without [keep], and the
    bytes of its decoded payload. *)
Definition saved_name (att : Message) : str :=
  re_sub_reserved (default [] (get_filename att)).

Definition saved_bytes (att : Message) : bytes :=
  default [] (get_payload_decode att).

(** An attachment that has a file name and a decoded payload and is not an
    embedded message. *)
Definition binary_attachment (att : Message) : Prop :=
  (exists name, get_filename att = Some name) /\
  get_content_type att <> u "message/rfc822" /\
  (exists data, get_payload_decode att = Some data).

(** The path to which an attachment is written without [keep]. *)
Definition destination (location : str) (att : Message) : str :=
  join location (saved_name att).

(** The file system after the attachments were written, one after the
    other, each to its destination. *)
Fixpoint files_written (location : str) (atts : list Message)
    (f : gmap Loc Node) : gmap Loc Node :=
  match atts with
  | [] => f
  | att :: rest =>
      files_written location rest
        (<[locate (destination location att)
           := File (Binary (saved_bytes att))]> f)
  end.

(** What has to hold of an attachment for its write to succeed in [f]. *)
Definition writable_into (location : str) (f : gmap Loc Node)
    (att : Message) : Prop :=
  binary_attachment att /\
  can_open_for_writing f (destination location att) = true.

(** An attachment that is itself multipart: it has no decoded payload. *)
Definition bundle_part (name : option str) : Message :=
  mkMessage true true (Some (u "attachment")) (u "multipart/mixed") name []
    (inr (nested_message (u "inner"))) None [] None.

(** The inbox with a regular file named [attachments] in the way. *)
Definition fs_blocked : gmap Loc Node :=
  <[(false, [u "attachments"]) := File (Binary [])]> fs_inbox.

Definition permission_denied (p : str) : Exception :=
  mkExc PermissionError (errno_msg "[Errno 13] Permission denied" p).

(** The inbox with one more file, [locked.eml], that may not be read. *)
Definition fs_locked : gmap Loc Node :=
  <[(false, [u "locked.eml"]) := File (Binary [2%N])]> fs_inbox.

Definition world_locked : World :=
  mkWorld fs_locked [] [] counting_tape 0
    (fun l => if bool_decide (l = (false, [u "locked.eml"]))
              then Some (permission_denied (u "locked.eml")) else None).

(** * Properties *)

(** ** The attachment selector *)

(** C1. On a multipart message [get_attachments] returns exactly what
    [iter_attachments] yields, in that order. On a message that is not
    multipart it returns the one-element list holding the message itself if
    and only if the message is an attachment or its content disposition is
    inline, and otherwise nothing ([None]). *)
Theorem get_attachments_selects (msg : Message) :
  (is_multipart msg = true ->
     get_attachments msg = Some (iter_attachments msg)) /\
  (is_multipart msg = false ->
     (get_attachments msg = Some [msg] <->
        (is_attachment msg = true \/
         get_content_disposition msg = Some (u "inline"))) /\
     (get_attachments msg = None <->
        ~ (is_attachment msg = true \/
           get_content_disposition msg = Some (u "inline")))).
Proof.
  unfold get_attachments. split.
  - intros ->. reflexivity.
  - intros ->. destruct (is_attachment msg) eqn:Ha; cbn [orb].
    + split; split; intros H; try reflexivity; try discriminate.
      * left; reflexivity.
      * exfalso. apply H. left; reflexivity.
    + case_bool_decide as Hd.
      * split; split; intros H; try reflexivity; try discriminate.
        -- right; exact Hd.
        -- exfalso. apply H. right; exact Hd.
      * split; split; intros H; try reflexivity; try discriminate.
        -- destruct H as [H | H]; [discriminate | contradiction].
        -- intros [H' | H']; [discriminate | contradiction].
Qed.

(** ** The filename sanitizer *)

Lemma reserved_codes : reserved = spec_reserved_set.
Proof. reflexivity. Qed.

Lemma is_reserved_spec c : is_reserved c = true <-> In c spec_reserved_set.
Proof.
  unfold is_reserved. rewrite reserved_codes, existsb_exists. split.
  - intros (x & Hx & Heq). apply N.eqb_eq in Heq. subst x. exact Hx.
  - intros Hc. exists c. split; [exact Hc | apply N.eqb_refl].
Qed.

Lemma re_sub_reserved_length s : length (re_sub_reserved s) = length s.
Proof. unfold re_sub_reserved. apply length_map. Qed.

Lemma re_sub_reserved_lookup (s : str) i :
  re_sub_reserved s !! i =
  (fun c => if is_reserved c then underscore else c) <$> (s !! i).
Proof. unfold re_sub_reserved. apply list_lookup_fmap. Qed.

Lemma underscore_not_reserved : is_reserved underscore = false.
Proof. reflexivity. Qed.

Lemma re_sub_reserved_idempotent s :
  re_sub_reserved (re_sub_reserved s) = re_sub_reserved s.
Proof.
  unfold re_sub_reserved. rewrite map_map. apply map_ext. intros c.
  destruct (is_reserved c) eqn:Hc.
  - rewrite underscore_not_reserved. reflexivity.
  - rewrite Hc. reflexivity.
Qed.

(** C2. On every string the sanitizer returns a string of the same length
    in which each character of the reserved set (slash, backslash, bar,
    brackets, braces, colon, angle brackets, plus, equals, semicolon, comma,
    question mark, exclamation mark, star, double quote, tilde, hash, dollar,
    percent, ampersand, at, single quote) is replaced by an underscore and
    every other character, the dot and the NUL character among them, stays
    as it is, at every position. *)
Theorem sanitize_filename_replaces_reserved (s : str) (w : World) :
  exists t : str,
    sanitize_filename (Some s) w = (Ret t, w) /\
    length t = length s /\
    (forall i c, s !! i = Some c ->
       (In c spec_reserved_set -> t !! i = Some underscore) /\
       (~ In c spec_reserved_set -> t !! i = Some c)) /\
    ~ In extsep spec_reserved_set /\ ~ In 0%N spec_reserved_set.
Proof.
  exists (re_sub_reserved s). split; [reflexivity |].
  split; [apply re_sub_reserved_length |]. split.
  - intros i c Hi. rewrite re_sub_reserved_lookup, Hi.
    cbn [fmap option_fmap option_map].
    split; intros Hc.
    + apply is_reserved_spec in Hc. rewrite Hc. reflexivity.
    + destruct (is_reserved c) eqn:Hr; [| reflexivity].
      apply is_reserved_spec in Hr. contradiction.
  - split; intros H; apply is_reserved_spec in H; discriminate.
Qed.

(** C9. The sanitizer is pure and idempotent: on a string it returns the
    same result in every world and leaves the world as it was, and
    sanitizing its result again gives the same string. *)
Theorem sanitize_filename_pure_idempotent (s : str) (w w' : World) :
  sanitize_filename (Some s) w = (Ret (re_sub_reserved s), w) /\
  fst (sanitize_filename (Some s) w) = fst (sanitize_filename (Some s) w') /\
  (do t <- sanitize_filename (Some s); sanitize_filename (Some t)) w =
    sanitize_filename (Some s) w /\
  re_sub_reserved (re_sub_reserved s) = re_sub_reserved s.
Proof.
  split; [reflexivity |]. split; [reflexivity |]. split.
  - unfold bind. cbn. rewrite re_sub_reserved_idempotent. reflexivity.
  - apply re_sub_reserved_idempotent.
Qed.

(** ** Facts about [rfind] and [splitext] *)

Lemma rfind_bounds c p : (-1 <= rfind c p < Z.of_nat (length p))%Z.
Proof.
  induction p as [| x p IH]; cbn [rfind length]; [lia |].
  destruct (0 <=? rfind c p)%Z eqn:Hr; [lia |].
  destruct (N.eqb x c); lia.
Qed.

Lemma rfind_app c a b :
  rfind c (a ++ b) =
  if (0 <=? rfind c b)%Z then (Z.of_nat (length a) + rfind c b)%Z
  else rfind c a.
Proof.
  induction a as [| x a IH]; cbn [app rfind length].
  - destruct (0 <=? rfind c b)%Z eqn:Hb; [lia |].
    pose proof (rfind_bounds c b). apply Z.leb_gt in Hb. lia.
  - rewrite IH. destruct (0 <=? rfind c b)%Z eqn:Hb.
    + apply Z.leb_le in Hb.
      replace (0 <=? Z.of_nat (length a) + rfind c b)%Z with true
        by (symmetry; apply Z.leb_le; lia).
      lia.
    + reflexivity.
Qed.

Lemma rfind_absent c p : ~ In c p -> rfind c p = (-1)%Z.
Proof.
  induction p as [| x p IH]; intros Hn; cbn [rfind]; [reflexivity |].
  rewrite IH by (intros H; apply Hn; right; exact H). cbn.
  destruct (N.eqb_spec x c) as [-> | _]; [| reflexivity].
  exfalso. apply Hn. left; reflexivity.
Qed.

Lemma rfind_absent_inv c p : (rfind c p < 0)%Z -> ~ In c p.
Proof.
  induction p as [| x p IH]; intros Hr; [intros [] |].
  cbn [rfind] in Hr. destruct (0 <=? rfind c p)%Z eqn:H0.
  - apply Z.leb_le in H0. lia.
  - apply Z.leb_gt in H0. destruct (N.eqb_spec x c) as [-> | Hne]; [lia |].
    intros [H | H]; [contradiction | exact (IH H0 H)].
Qed.

Lemma rfind_head c b : ~ In c b -> rfind c (c :: b) = 0%Z.
Proof.
  intros Hn. cbn [rfind]. rewrite (rfind_absent c b Hn). cbn.
  rewrite N.eqb_refl. reflexivity.
Qed.

(** The last occurrence splits the string. *)
Lemma rfind_split c p :
  (0 <= rfind c p)%Z ->
  exists a b, p = a ++ c :: b /\ Z.of_nat (length a) = rfind c p /\ ~ In c b.
Proof.
  induction p as [| x p IH]; cbn [rfind]; [lia |].
  destruct (0 <=? rfind c p)%Z eqn:H0.
  - intros _. apply Z.leb_le in H0. destruct (IH H0) as (a & b & -> & Hl & Hb).
    exists (x :: a), b. cbn [app length]. repeat split; [lia | exact Hb].
  - destruct (N.eqb_spec x c) as [-> | Hne]; [| lia]. intros _.
    exists [], p. apply Z.leb_gt in H0. repeat split.
    exact (rfind_absent_inv c p H0).
Qed.

Lemma splitext_concat p : fst (splitext p) ++ snd (splitext p) = p.
Proof.
  unfold splitext.
  destruct (rfind sep p <? rfind extsep p)%Z; [| apply app_nil_r].
  destruct (existsb _ _); [| apply app_nil_r].
  unfold slice_to, slice_from. cbn [fst snd]. apply take_drop.
Qed.

(** [splitext] either splits at the last dot, which then lies behind the
    last separator, or finds no extension. *)
Lemma splitext_branches p :
  (exists a b, p = a ++ extsep :: b /\ ~ In extsep b /\ ~ In sep (extsep :: b) /\
     splitext p = (a, extsep :: b) /\
     Z.of_nat (length a) = rfind extsep p /\
     (rfind sep p < rfind extsep p)%Z) \/
  (splitext p = (p, []) /\
    (~ (rfind sep p < rfind extsep p)%Z \/
     ((rfind sep p < rfind extsep p)%Z /\
     existsb (fun ch => negb (N.eqb ch extsep))
         (slice_to (slice_from p (rfind sep p + 1))
            (rfind extsep p - (rfind sep p + 1))) = false))).
Proof.
  unfold splitext.
  destruct (rfind sep p <? rfind extsep p)%Z eqn:Hlt.
  - apply Z.ltb_lt in Hlt.
    destruct (existsb _ _) eqn:Hex.
    + left. pose proof (rfind_bounds sep p) as Hbs.
      destruct (rfind_split extsep p) as (a & b & Hp & Hla & Hb); [lia |].
      exists a, b. split; [exact Hp |]. split; [exact Hb |].
      assert (Hsb : ~ In sep (extsep :: b)).
      { apply rfind_absent_inv.
        pose proof (rfind_bounds sep (extsep :: b)) as Hb'.
        pose proof (rfind_app sep a (extsep :: b)) as Happ.
        rewrite <- Hp in Happ.
        destruct (0 <=? rfind sep (extsep :: b))%Z eqn:H0;
          [apply Z.leb_le in H0 | apply Z.leb_gt in H0]; lia. }
      split; [exact Hsb |]. split; [| split; [exact Hla | exact Hlt]].
      unfold slice_to, slice_from. rewrite <- Hla, Nat2Z.id.
      clear Hla Hlt Hbs Hsb Hex. subst p.
      rewrite take_app_length, drop_app_length. reflexivity.
    + right. split; [reflexivity |]. right. split; [exact Hlt | reflexivity].
  - right. split; [reflexivity |]. left. apply Z.ltb_ge in Hlt. lia.
Qed.

(** Inserting, between stem and extension, a piece that contains neither a
    separator nor a dot and is not empty, moves the split behind the piece. *)
Lemma splitext_insert p m :
  ~ In sep m -> ~ In extsep m -> m <> [] ->
  splitext (fst (splitext p) ++ m ++ snd (splitext p)) =
  (fst (splitext p) ++ m, snd (splitext p)).
Proof.
  intros Hsep Hdot Hne.
  assert (Hm1 : rfind sep m = (-1)%Z) by (apply rfind_absent; exact Hsep).
  assert (Hm2 : rfind extsep m = (-1)%Z) by (apply rfind_absent; exact Hdot).
  destruct (splitext_branches p)
    as [(a & b & Hp & Hb & Hsb & -> & Hla & Hlt) | [-> Hcase]]; cbn [fst snd].
  - pose proof (rfind_bounds sep p) as Hbs.
    assert (Hsa : rfind sep a = rfind sep p).
    { rewrite Hp at 1. rewrite rfind_app, (rfind_absent _ _ Hsb). reflexivity. }
    assert (Hs : rfind sep (a ++ m ++ extsep :: b) = rfind sep p).
    { rewrite !rfind_app, (rfind_absent _ _ Hsb), Hm1. cbn. exact Hsa. }
    assert (Hd : rfind extsep (a ++ m ++ extsep :: b)
                 = Z.of_nat (length (a ++ m))).
    { rewrite app_assoc, rfind_app, (rfind_head extsep b Hb). cbn. lia. }
    unfold splitext. rewrite Hs, Hd.
    replace (rfind sep p <? Z.of_nat (length (a ++ m)))%Z with true
      by (symmetry; apply Z.ltb_lt; rewrite length_app; lia).
    unfold slice_to, slice_from. rewrite Nat2Z.id.
    assert (Hex' : existsb (fun ch => negb (N.eqb ch extsep))
              (take (Z.to_nat (Z.of_nat (length (a ++ m)) - (rfind sep p + 1)))
                 (drop (Z.to_nat (rfind sep p + 1)) (a ++ m ++ extsep :: b)))
            = true).
    { apply existsb_exists. destruct m as [| c m']; [contradiction |].
      exists c. split.
      - apply list_elem_of_In.
        apply (list_elem_of_lookup_2 _ (length a - Z.to_nat (rfind sep p + 1))).
        rewrite lookup_take_lt by (rewrite length_app; cbn [length]; lia).
        rewrite lookup_drop.
        rewrite lookup_app_r by lia.
        replace (Z.to_nat (rfind sep p + 1) +
                 (length a - Z.to_nat (rfind sep p + 1)) - length a)%nat
          with 0%nat by lia.
        reflexivity.
      - destruct (N.eqb_spec c extsep) as [-> | _]; [| reflexivity].
        exfalso. apply Hdot. left; reflexivity. }
    rewrite Hex'. f_equal.
    + rewrite app_assoc. apply take_app_length.
    + rewrite app_assoc. apply drop_app_length.
  - rewrite !app_nil_r. unfold splitext.
    rewrite !rfind_app, Hm1, Hm2. cbn [Z.leb Z.compare Z.opp].
    destruct Hcase as [Hge | [Hlt Hex]].
    + replace (rfind sep p <? rfind extsep p)%Z with false
        by (symmetry; apply Z.ltb_ge; lia). reflexivity.
    + replace (rfind sep p <? rfind extsep p)%Z with true
        by (symmetry; apply Z.ltb_lt; exact Hlt).
      pose proof (rfind_bounds sep p) as Hbs.
      pose proof (rfind_bounds extsep p) as Hbd.
      unfold slice_to, slice_from in *.
      rewrite drop_app_le by lia.
      rewrite take_app_le by (rewrite length_drop; lia).
      rewrite Hex. reflexivity.
Qed.

(** ** The unique-path resolver *)

Lemma random_suffix_run w :
  random_suffix w = (Ret (suffix_from w (random_pos w)), advance 5 w).
Proof. reflexivity. Qed.

Lemma advance_advance n m w : advance n (advance m w) = advance (n + m) w.
Proof. unfold advance. cbn. f_equal. lia. Qed.

Lemma suffix_at_advance w k : suffix_at (advance 5 w) k = suffix_at w (S k).
Proof.
  unfold suffix_at, suffix_from, pick. cbn [advance random_pos random_tape].
  f_equal. f_equal. lia.
Qed.

Lemma suffix_from_length w pos : length (suffix_from w pos) = 5%nat.
Proof. reflexivity. Qed.

Lemma pick_alnum w i : is_alnum (pick w i).
Proof.
  unfold is_alnum, pick. apply nth_In.
  apply Nat.mod_upper_bound. discriminate.
Qed.

Lemma suffix_from_alnum w pos : Forall is_alnum (suffix_from w pos).
Proof.
  unfold suffix_from. apply Forall_forall. intros c Hc.
  apply list_elem_of_In in Hc. apply in_map_iff in Hc.
  destruct Hc as (i & <- & _). apply pick_alnum.
Qed.

Lemma alnum_no_sep_dot c : is_alnum c -> c <> sep /\ c <> extsep.
Proof.
  unfold is_alnum. intros Hc.
  assert (Hall : forallb (fun c => negb (N.eqb c sep) && negb (N.eqb c extsep))
                   alnum = true) by reflexivity.
  rewrite forallb_forall in Hall. specialize (Hall c Hc).
  apply andb_true_iff in Hall. destruct Hall as [H1 H2].
  apply negb_true_iff in H1, H2. apply N.eqb_neq in H1, H2. split; assumption.
Qed.

Lemma unique_path_loop_free fuel stem ext cur w :
  stat (fs w) cur = None ->
  unique_path_loop fuel stem ext cur w = (Ret cur, w).
Proof.
  intros Hfree. destruct fuel; cbn [unique_path_loop];
    unfold bind, os_path_exists; rewrite Hfree; reflexivity.
Qed.

Lemma unique_path_loop_occupied fuel stem ext cur w :
  stat (fs w) cur <> None ->
  unique_path_loop (S fuel) stem ext cur w =
  unique_path_loop fuel stem ext
    (stem ++ u "_" ++ suffix_at w 0 ++ ext) (advance 5 w).
Proof.
  intros Hocc. cbn [unique_path_loop]. unfold bind at 1, os_path_exists.
  destruct (stat (fs w) cur); [| contradiction].
  unfold bind at 1. rewrite random_suffix_run. reflexivity.
Qed.

Lemma unique_path_loop_out_of_fuel stem ext cur w :
  stat (fs w) cur <> None ->
  unique_path_loop 0 stem ext cur w = (Diverge, w).
Proof.
  intros Hocc. cbn [unique_path_loop]. unfold bind, os_path_exists.
  destruct (stat (fs w) cur); [reflexivity | contradiction].
Qed.

Lemma unique_path_loop_finds stem ext j :
  forall fuel w cur,
    stat (fs w) cur <> None ->
    (forall i, (i < j)%nat ->
       stat (fs w) (stem ++ u "_" ++ suffix_at w i ++ ext) <> None) ->
    stat (fs w) (stem ++ u "_" ++ suffix_at w j ++ ext) = None ->
    (j < fuel)%nat ->
    unique_path_loop fuel stem ext cur w =
    (Ret (stem ++ u "_" ++ suffix_at w j ++ ext), advance (5 * S j) w).
Proof.
  induction j as [| j IH]; intros fuel w cur Hocc Hbefore Hfree Hfuel.
  - destruct fuel as [| fuel]; [lia |].
    rewrite unique_path_loop_occupied by exact Hocc.
    apply unique_path_loop_free. exact Hfree.
  - destruct fuel as [| fuel]; [lia |].
    rewrite unique_path_loop_occupied by exact Hocc.
    rewrite (IH fuel (advance 5 w)).
    + rewrite suffix_at_advance, advance_advance. do 2 f_equal. lia.
    + apply (Hbefore 0%nat). lia.
    + intros i Hi. rewrite suffix_at_advance. apply (Hbefore (S i)). lia.
    + rewrite suffix_at_advance. exact Hfree.
    + lia.
Qed.

Lemma first_true (P : nat -> bool) k :
  P k = true ->
  exists j, (j <= k)%nat /\ P j = true /\ forall i, (i < j)%nat -> P i = false.
Proof.
  induction k as [k IH] using lt_wf_ind. intros Hk.
  destruct (forallb (fun i => negb (P i)) (seq 0 k)) eqn:Hall.
  - exists k. split; [lia |]. split; [exact Hk |]. intros i Hi.
    rewrite forallb_forall in Hall. specialize (Hall i).
    rewrite in_seq in Hall. apply negb_true_iff. apply Hall. lia.
  - assert (Hex : exists i, In i (seq 0 k) /\ P i = true).
    { clear -Hall. induction (seq 0 k) as [| x l IHl]; [discriminate |].
      cbn [forallb] in Hall. apply andb_false_iff in Hall.
      destruct Hall as [Hx | Hl].
      - exists x. split; [left; reflexivity |].
        apply negb_false_iff. exact Hx.
      - destruct (IHl Hl) as (i & Hi & HP). exists i. split; [right |]; assumption. }
    destruct Hex as (i & Hi & HP). apply in_seq in Hi.
    destruct (IH i ltac:(lia) HP) as (j & Hj & HPj & Hmin).
    exists j. split; [lia |]. split; assumption.
Qed.

Lemma get_unique_path_unfold fuel path w :
  get_unique_path fuel path w =
  unique_path_loop fuel (fst (splitext path)) (snd (splitext path)) path w.
Proof. unfold get_unique_path. destruct (splitext path). reflexivity. Qed.

(** When every candidate is occupied the loop never ends, whatever the
    bound. *)
Lemma unique_path_loop_starves stem ext fuel :
  forall w cur,
    stat (fs w) cur <> None ->
    (forall k, stat (fs w) (stem ++ u "_" ++ suffix_at w k ++ ext) <> None) ->
    unique_path_loop fuel stem ext cur w = (Diverge, advance (5 * fuel) w).
Proof.
  induction fuel as [| fuel IH]; intros w cur Hocc Hall.
  - rewrite unique_path_loop_out_of_fuel by exact Hocc.
    destruct w; reflexivity.
  - rewrite unique_path_loop_occupied by exact Hocc.
    rewrite (IH (advance 5 w)).
    + rewrite advance_advance. do 2 f_equal. lia.
    + apply (Hall 0%nat).
    + intros k. rewrite suffix_at_advance. apply (Hall (S k)).
Qed.

(** C3. If nothing exists at the path, [get_unique_path] returns the path
    unchanged. If something exists there and the generator draws, as its
    [k]-th suffix, one whose candidate is unoccupied, the call returns (for
    every bound above the number of candidates tried) a path at which
    nothing exists in the file system of the call, of the form stem,
    underscore, five alphanumeric characters, extension, where stem and
    extension are those of the given path; the stem of the returned path is
    the given stem followed by the underscore and the suffix. *)
Theorem get_unique_path_resolves (path : str) (w : World) :
  (stat (fs w) path = None ->
   forall fuel, get_unique_path fuel path w = (Ret path, w)) /\
  (stat (fs w) path <> None ->
   forall k, stat (fs w) (candidate path w k) = None ->
   exists (j : nat) (suffix : str),
     (j <= k)%nat /\ length suffix = 5%nat /\ Forall is_alnum suffix /\
     stat (fs w)
       (fst (splitext path) ++ u "_" ++ suffix ++ snd (splitext path)) = None /\
     splitext (fst (splitext path) ++ u "_" ++ suffix ++ snd (splitext path)) =
       (fst (splitext path) ++ u "_" ++ suffix, snd (splitext path)) /\
     forall fuel, (j < fuel)%nat ->
       get_unique_path fuel path w =
       (Ret (fst (splitext path) ++ u "_" ++ suffix ++ snd (splitext path)),
        advance (5 * S j) w) /\
       fs (advance (5 * S j) w) = fs w).
Proof.
  split.
  - intros Hfree fuel. rewrite get_unique_path_unfold.
    apply unique_path_loop_free. exact Hfree.
  - intros Hocc k Hk.
    destruct (first_true
                (fun i => bool_decide (stat (fs w) (candidate path w i) = None)) k)
      as (j & Hjk & Hj & Hmin).
    { apply bool_decide_eq_true. exact Hk. }
    apply bool_decide_eq_true in Hj.
    exists j, (suffix_at w j).
    split; [exact Hjk |]. split; [apply suffix_from_length |].
    split; [apply suffix_from_alnum |]. split; [exact Hj |]. split.
    + change (u "_" ++ suffix_at w j ++ snd (splitext path))
        with ((u "_" ++ suffix_at w j) ++ snd (splitext path)).
      rewrite (app_assoc (fst (splitext path)) (u "_" ++ suffix_at w j)).
      rewrite <- (app_assoc (fst (splitext path))).
      apply splitext_insert.
      * intros [H | H]; [discriminate |].
        pose proof (suffix_from_alnum w (5 * j + random_pos w)) as Hal.
        rewrite Forall_forall in Hal. apply list_elem_of_In in H.
        apply Hal in H. apply alnum_no_sep_dot in H. destruct H as [H _].
        apply H. reflexivity.
      * intros [H | H]; [discriminate |].
        pose proof (suffix_from_alnum w (5 * j + random_pos w)) as Hal.
        rewrite Forall_forall in Hal. apply list_elem_of_In in H.
        apply Hal in H. apply alnum_no_sep_dot in H. destruct H as [_ H].
        apply H. reflexivity.
      * discriminate.
    + intros fuel Hfuel. split; [| reflexivity].
      rewrite get_unique_path_unfold.
      apply unique_path_loop_finds; [exact Hocc | | exact Hj | exact Hfuel].
      intros i Hi. specialize (Hmin i Hi).
      apply bool_decide_eq_false in Hmin. exact Hmin.
Qed.

(** The resolver on an occupied [attachments/report.docx]. *)
Lemma get_unique_path_resolves_witness :
  stat (fs (world_of fs_report)) (u "attachments/report.docx") <> None /\
  stat (fs (world_of fs_report))
    (candidate (u "attachments/report.docx") (world_of fs_report) 0) = None /\
  exists (j : nat) (suffix : str),
    (j <= 0)%nat /\ length suffix = 5%nat /\ Forall is_alnum suffix /\
    stat (fs (world_of fs_report))
      (fst (splitext (u "attachments/report.docx")) ++ u "_" ++ suffix ++
       snd (splitext (u "attachments/report.docx"))) = None /\
    splitext (fst (splitext (u "attachments/report.docx")) ++ u "_" ++ suffix ++
              snd (splitext (u "attachments/report.docx"))) =
      (fst (splitext (u "attachments/report.docx")) ++ u "_" ++ suffix,
       snd (splitext (u "attachments/report.docx"))) /\
    forall fuel, (j < fuel)%nat ->
      get_unique_path fuel (u "attachments/report.docx") (world_of fs_report) =
      (Ret (fst (splitext (u "attachments/report.docx")) ++ u "_" ++ suffix ++
            snd (splitext (u "attachments/report.docx"))),
       advance (5 * S j) (world_of fs_report)) /\
      fs (advance (5 * S j) (world_of fs_report)) = fs (world_of fs_report).
Proof.
  assert (Hocc : stat (fs (world_of fs_report)) (u "attachments/report.docx")
                 <> None) by (vm_compute; discriminate).
  assert (Hfree : stat (fs (world_of fs_report))
            (candidate (u "attachments/report.docx") (world_of fs_report) 0)
          = None) by (vm_compute; reflexivity).
  split; [exact Hocc |]. split; [exact Hfree |].
  exact (proj2 (get_unique_path_resolves (u "attachments/report.docx")
                  (world_of fs_report)) Hocc 0%nat Hfree).
Defined.

Example get_unique_path_report :
  get_unique_path 1 (u "attachments/report.docx") (world_of fs_report) =
  (Ret (u "attachments/report_abcde.docx"), advance 5 (world_of fs_report)).
Proof. vm_compute. reflexivity. Qed.

(** ** File operations *)

Lemma open_write_cases p m w :
  (can_open_for_writing (fs w) p = false /\
   exists e, open_write p m w = (Raise e, w)) \/
  (can_open_for_writing (fs w) p = true /\
   open_write p m w =
   (Ret (locate p),
    set_fs (<[locate p := File (empty_content m)]> (fs w)) w)).
Proof.
  unfold can_open_for_writing, open_write.
  case_bool_decide as Hp; cbn [negb andb]; [left; eauto |].
  destruct (names_directory p); cbn [negb andb].
  { left. split; [reflexivity |]. destruct (endswith_sep p); [eauto |].
    destruct (node_at (fs w) (locate p)) as [[| c] |]; eauto. }
  destruct (node_at (fs w) (locate p)) as [[| c] |]; [left; eauto | right; eauto |].
  destruct (node_at (fs w) (fst (locate p), tail (snd (locate p))))
    as [[| c] |]; [right; eauto | left; eauto | left; eauto].
Qed.

Lemma open_write_ok p m w :
  can_open_for_writing (fs w) p = true ->
  open_write p m w =
  (Ret (locate p), set_fs (<[locate p := File (empty_content m)]> (fs w)) w).
Proof.
  intros Hok. destruct (open_write_cases p m w) as [[Hno _] | [_ H]];
    [congruence | exact H].
Qed.

Lemma node_at_None f l : node_at f l = None -> f !! l = None.
Proof. unfold node_at. destruct (is_root l); [discriminate | auto]. Qed.

Lemma node_at_insert_ne (f : gmap (bool * list (list N)) Node) l l' n :
  l <> l' -> node_at (<[l := n]> f) l' = node_at f l'.
Proof.
  intros Hne. unfold node_at. destruct (is_root l'); [reflexivity |].
  apply lookup_insert_ne. exact Hne.
Qed.

(** A path that names nothing and can be opened denotes a free location. *)
Lemma free_location f p :
  stat f p = None -> can_open_for_writing f p = true -> f !! locate p = None.
Proof.
  unfold stat, can_open_for_writing. intros Hstat Hok.
  case_bool_decide; [discriminate |]. cbn [negb andb] in Hok.
  destruct (names_directory p); [discriminate |].
  apply node_at_None. exact Hstat.
Qed.

Lemma set_fs_set_fs f f' w : set_fs f (set_fs f' w) = set_fs f w.
Proof. reflexivity. Qed.

Lemma fs_set_fs f w : fs (set_fs f w) = f.
Proof. reflexivity. Qed.

(** What [write_payload] does once the file is open. *)
Lemma write_payload_rfc822 path att data w :
  is_rfc822 att = true ->
  get_payload_0 att = inr data ->
  can_open_for_writing (fs w) path = true ->
  write_payload path att w =
  (match flatten_raises data with Some e => Raise e | None => Ret tt end,
   set_fs (<[locate path := File (Text (flattened data))]> (fs w)) w).
Proof.
  intros Hty Hdata Hok. unfold write_payload. fold (is_rfc822 att). rewrite Hty.
  unfold bind at 1, get_payload_at_0. rewrite Hdata. cbn [ret].
  unfold bind at 1. rewrite (open_write_ok _ _ _ Hok).
  unfold generator_flatten, bind, file_write.
  rewrite set_fs_set_fs, fs_set_fs, insert_insert_eq.
  destruct (flatten_raises data); reflexivity.
Qed.

Lemma write_payload_binary path att data w :
  is_rfc822 att = false ->
  get_payload_decode att = Some data ->
  can_open_for_writing (fs w) path = true ->
  write_payload path att w =
  (Ret tt, set_fs (<[locate path := File (Binary data)]> (fs w)) w).
Proof.
  intros Hty Hdata Hok. unfold write_payload. fold (is_rfc822 att). rewrite Hty.
  unfold bind at 1. rewrite (open_write_ok _ _ _ Hok).
  rewrite Hdata. unfold write_bytes, file_write.
  rewrite set_fs_set_fs, fs_set_fs, insert_insert_eq. reflexivity.
Qed.

(** [write_payload] either raises before it opens the file, or it opens
    the file and leaves some content in it. *)
Lemma write_payload_cases path att w :
  (exists e, write_payload path att w = (Raise e, w)) \/
  (can_open_for_writing (fs w) path = true /\
   exists r c, write_payload path att w =
               (r, set_fs (<[locate path := File c]> (fs w)) w)).
Proof.
  unfold write_payload, get_payload_at_0, generator_flatten,
    write_bytes, file_write, bind, raise, ret.
  destruct (str_eqb _ _).
  - destruct (get_payload_0 att) as [e | data]; [left; eauto |].
    destruct (open_write_cases path ModeW w) as [[_ [e ->]] | [Hok ->]];
      [left; eauto |].
    right. split; [exact Hok |]. cbv beta iota.
    rewrite set_fs_set_fs, fs_set_fs, insert_insert_eq.
    destruct (flatten_raises data); eauto.
  - destruct (open_write_cases path ModeWB w) as [[_ [e ->]] | [Hok ->]];
      [left; eauto |].
    right. split; [exact Hok |]. cbv beta iota.
    destruct (get_payload_decode att) as [b |].
    + rewrite set_fs_set_fs, fs_set_fs, insert_insert_eq. eauto.
    + eauto.
Qed.

Lemma write_payload_streams path att w :
  stdout (snd (write_payload path att w)) = stdout w /\
  stderr (snd (write_payload path att w)) = stderr w.
Proof.
  destruct (write_payload_cases path att w) as [[e ->] | (_ & r & c & ->)];
    split; reflexivity.
Qed.

Lemma write_payload_fresh path att w :
  stat (fs w) path = None -> fs w ⊆ fs (snd (write_payload path att w)).
Proof.
  intros Hfree.
  destruct (write_payload_cases path att w) as [[e ->] | (Hok & r & c & ->)];
    [reflexivity |].
  apply insert_subseteq. apply free_location; assumption.
Qed.

(** [get_unique_path] consumes random outcomes only, and what it returns
    names nothing. *)
Lemma unique_path_loop_effect fuel stem ext :
  forall cur w,
    (exists n, snd (unique_path_loop fuel stem ext cur w) = advance n w) /\
    (forall p, fst (unique_path_loop fuel stem ext cur w) = Ret p ->
       stat (fs w) p = None) /\
    (forall e, fst (unique_path_loop fuel stem ext cur w) <> Raise e).
Proof.
  induction fuel as [| fuel IH]; intros cur w.
  - destruct (stat (fs w) cur) as [nd |] eqn:Hs.
    + rewrite unique_path_loop_out_of_fuel by congruence. cbn [fst snd].
      split; [exists 0%nat; destruct w; reflexivity |]. split; [discriminate |].
      discriminate.
    + rewrite unique_path_loop_free by exact Hs. cbn [fst snd].
      split; [exists 0%nat; destruct w; reflexivity |]. split; [| discriminate].
      intros p [= <-]. exact Hs.
  - destruct (stat (fs w) cur) as [nd |] eqn:Hs.
    + rewrite unique_path_loop_occupied by congruence.
      destruct (IH (stem ++ u "_" ++ suffix_at w 0 ++ ext) (advance 5 w))
        as ([n Hn] & Hret & Hexc).
      split; [| split; [exact Hret | exact Hexc]].
      exists (n + 5)%nat. rewrite Hn. apply advance_advance.
    + rewrite unique_path_loop_free by exact Hs. cbn [fst snd].
      split; [exists 0%nat; destruct w; reflexivity |]. split; [| discriminate].
      intros p [= <-]. exact Hs.
Qed.

Lemma get_unique_path_effect fuel path w :
  (exists n, snd (get_unique_path fuel path w) = advance n w) /\
  (forall p, fst (get_unique_path fuel path w) = Ret p -> stat (fs w) p = None) /\
  (forall e, fst (get_unique_path fuel path w) <> Raise e).
Proof. rewrite get_unique_path_unfold. apply unique_path_loop_effect. Qed.

(** ** The attachment writer *)

Lemma is_rfc822_true att :
  is_rfc822 att = true <-> get_content_type att = u "message/rfc822".
Proof. unfold is_rfc822, str_eqb. apply bool_decide_eq_true. Qed.

Lemma is_rfc822_false att :
  is_rfc822 att = false <-> get_content_type att <> u "message/rfc822".
Proof. unfold is_rfc822, str_eqb. apply bool_decide_eq_false. Qed.


Lemma save_attachment_named fuel location att keep name w :
  get_filename att = Some name ->
  save_attachment fuel location att keep w =
  (do path <- (if keep
               then get_unique_path fuel (join location (re_sub_reserved name))
               else ret (join location (re_sub_reserved name)));
   write_payload path att) w.
Proof. intros Hn. unfold save_attachment, sanitize_filename. rewrite Hn. reflexivity. Qed.

Lemma save_attachment_unnamed fuel location att keep w :
  get_filename att = None ->
  save_attachment fuel location att keep w = (Raise re_sub_type_error, w).
Proof. intros Hn. unfold save_attachment, sanitize_filename. rewrite Hn. reflexivity. Qed.

(** With [keep], whatever existed before the call is still there, unchanged. *)
Lemma save_attachment_keep_preserves fuel location att w :
  fs w ⊆ fs (snd (save_attachment fuel location att true w)).
Proof.
  destruct (get_filename att) as [name |] eqn:Hn.
  - rewrite (save_attachment_named _ _ _ _ _ _ Hn). unfold bind.
    destruct (get_unique_path_effect fuel (join location (re_sub_reserved name)) w)
      as ([n Hw] & Hret & _).
    destruct (get_unique_path fuel (join location (re_sub_reserved name)) w)
      as [[p | e |] w1]; cbn [fst snd] in *; subst w1;
      [| reflexivity | reflexivity].
    apply (write_payload_fresh p att (advance n w)). apply Hret. reflexivity.
  - rewrite (save_attachment_unnamed _ _ _ _ _ Hn). reflexivity.
Qed.


(** C5. Once the destination path is settled and can be opened: an
    attachment of content type message/rfc822 has its first sub-part taken
    as the nested message, and the text that the generator emits for it is
    what the file, opened as text, holds afterwards; an attachment of any
    other type has its decoded payload written as the bytes of the file,
    opened as binary. *)
Theorem save_attachment_writes_by_type
    (fuel : nat) (location : str) (keep : bool) (att : Message)
    (name path : str) (w w1 : World) :
  get_filename att = Some name ->
  (if keep
   then get_unique_path fuel (join location (re_sub_reserved name))
   else ret (join location (re_sub_reserved name))) w = (Ret path, w1) ->
  can_open_for_writing (fs w1) path = true ->
  (get_content_type att = u "message/rfc822" ->
   write_payload path att =
     (do data <- get_payload_at_0 att;
      do file <- open_write path ModeW;
      generator_flatten file data) /\
   forall nested, get_payload_0 att = inr nested ->
     save_attachment fuel location att keep w =
     (match flatten_raises nested with Some e => Raise e | None => Ret tt end,
      set_fs (<[locate path := File (Text (flattened nested))]> (fs w1)) w1)) /\
  (get_content_type att <> u "message/rfc822" ->
   write_payload path att =
     (do file <- open_write path ModeWB;
      write_bytes file (get_payload_decode att)) /\
   forall data, get_payload_decode att = Some data ->
     save_attachment fuel location att keep w =
     (Ret tt, set_fs (<[locate path := File (Binary data)]> (fs w1)) w1)).
Proof.
  intros Hn Hpath Hok. split; intros Hty.
  - apply is_rfc822_true in Hty. split.
    + unfold write_payload. fold (is_rfc822 att). rewrite Hty. reflexivity.
    + intros nested Hdata. rewrite (save_attachment_named _ _ _ _ _ _ Hn).
      unfold bind at 1. rewrite Hpath.
      apply write_payload_rfc822; assumption.
  - apply is_rfc822_false in Hty. split.
    + unfold write_payload. fold (is_rfc822 att). rewrite Hty. reflexivity.
    + intros data Hdata. rewrite (save_attachment_named _ _ _ _ _ _ Hn).
      unfold bind at 1. rewrite Hpath.
      apply write_payload_binary; assumption.
Qed.

(** ** Paths inside a directory *)

Lemma re_sub_reserved_no_sep s : ~ In sep (re_sub_reserved s).
Proof.
  unfold re_sub_reserved. intros H. apply in_map_iff in H.
  destruct H as (c & Hc & _). destruct (is_reserved c) eqn:Hr.
  - discriminate.
  - subst c. discriminate.
Qed.

Lemma join_relative a x :
  ~ In sep x -> join a x = dir_prefix a ++ x.
Proof.
  intros Hx. unfold join, dir_prefix.
  assert (Hs : startswith_sep x = false).
  { destruct x as [| c x]; [reflexivity |]. cbn.
    destruct (N.eqb_spec c sep) as [-> | _]; [| reflexivity].
    exfalso. apply Hx. left; reflexivity. }
  rewrite Hs. destruct (bool_decide (a = []) || endswith_sep a);
    [reflexivity |]. rewrite <- app_assoc. reflexivity.
Qed.

Lemma endswith_sep_inv a :
  endswith_sep a = true -> exists a0, a = a0 ++ [sep].
Proof.
  unfold endswith_sep. destruct (last a) as [c |] eqn:Hl; [| discriminate].
  intros Hc. apply N.eqb_eq in Hc. subst c.
  apply last_Some in Hl. exact Hl.
Qed.

Lemma dir_prefix_cases a :
  a <> [] -> exists a0, dir_prefix a = a0 ++ [sep] /\
                       (a = a0 \/ a = a0 ++ [sep]).
Proof.
  intros Ha. unfold dir_prefix. case_bool_decide; [contradiction |].
  cbn [orb]. destruct (endswith_sep a) eqn:He.
  - destruct (endswith_sep_inv a He) as [a0 ->]. exists a0. auto.
  - exists a. auto.
Qed.

Lemma split_sep_nonempty p : split_sep p <> [].
Proof.
  destruct p as [| x p]; cbn; [discriminate |].
  destruct (N.eqb x sep); [discriminate |].
  destruct (split_sep p); discriminate.
Qed.

Lemma split_sep_no_sep y : ~ In sep y -> split_sep y = [y].
Proof.
  induction y as [| c y IH]; intros Hy; [reflexivity |].
  cbn [split_sep]. destruct (N.eqb_spec c sep) as [-> | _].
  - exfalso. apply Hy. left; reflexivity.
  - rewrite IH by (intros H; apply Hy; right; exact H). reflexivity.
Qed.

Lemma split_sep_app a b :
  split_sep (a ++ sep :: b) = split_sep a ++ split_sep b.
Proof.
  induction a as [| c a IH]; cbn [app split_sep].
  - rewrite N.eqb_refl. reflexivity.
  - rewrite IH. destruct (N.eqb c sep); [reflexivity |].
    destruct (split_sep a) as [| c0 cs] eqn:Hs; [| reflexivity].
    exfalso. exact (split_sep_nonempty a Hs).
Qed.

(** The components of a name inside a directory. *)
Lemma split_sep_in_dir a0 y :
  ~ In sep y -> split_sep (a0 ++ [sep] ++ y) = split_sep a0 ++ [y].
Proof.
  intros Hy. cbn [app]. rewrite split_sep_app, (split_sep_no_sep y Hy).
  reflexivity.
Qed.

Lemma startswith_sep_app a b :
  a <> [] -> startswith_sep (a ++ b) = startswith_sep a.
Proof. destruct a; [contradiction | reflexivity]. Qed.

Lemma locate_dir_prefix a :
  a <> [] -> locate (dir_prefix a) = locate a.
Proof.
  intros Ha. unfold dir_prefix. case_bool_decide; [contradiction |].
  cbn [orb]. destruct (endswith_sep a); [reflexivity |].
  unfold locate. rewrite startswith_sep_app by exact Ha. f_equal.
  replace (a ++ [sep]) with (a ++ sep :: []) by reflexivity.
  rewrite split_sep_app, fold_left_app. reflexivity.
Qed.

Lemma names_directory_in_dir a y :
  a <> [] -> ~ In sep y ->
  names_directory (dir_prefix a ++ y) =
  bool_decide (y = [] \/ y = dot \/ y = dotdot).
Proof.
  intros Ha Hy. destruct (dir_prefix_cases a Ha) as (a0 & -> & _).
  unfold names_directory. rewrite <- app_assoc, split_sep_in_dir by exact Hy.
  rewrite last_snoc. reflexivity.
Qed.

Lemma locate_in_dir a y :
  a <> [] -> ~ In sep y ->
  names_directory (dir_prefix a ++ y) = false ->
  locate (dir_prefix a ++ y) = (fst (locate a), y :: snd (locate a)).
Proof.
  intros Ha Hy Hnd. rewrite names_directory_in_dir in Hnd by assumption.
  apply bool_decide_eq_false in Hnd.
  rewrite <- (locate_dir_prefix a Ha).
  destruct (dir_prefix_cases a Ha) as (a0 & Hd & _). rewrite Hd.
  unfold locate.
  rewrite (startswith_sep_app (a0 ++ [sep]) y)
    by (intros H; apply app_eq_nil in H; destruct H; discriminate).
  rewrite <- app_assoc. cbn [fst snd]. f_equal.
  rewrite split_sep_in_dir by exact Hy.
  replace (a0 ++ [sep]) with (a0 ++ sep :: []) by reflexivity.
  rewrite split_sep_app, !fold_left_app. cbn [fold_left split_sep].
  unfold norm_step at 1 3.
  rewrite (bool_decide_eq_false_2 (y = [] \/ y = dot)) by tauto.
  rewrite (bool_decide_eq_false_2 (y = dotdot)) by tauto.
  rewrite (bool_decide_eq_true_2 ([] = [] \/ [] = dot)) by (left; reflexivity).
  reflexivity.
Qed.

(** [splitext] splits inside the last component. *)
Lemma splitext_in_dir a x :
  a <> [] -> ~ In sep x ->
  exists x1 x2,
    splitext (dir_prefix a ++ x) = (dir_prefix a ++ x1, x2) /\ x = x1 ++ x2.
Proof.
  intros Ha Hx. destruct (dir_prefix_cases a Ha) as (a0 & Hd & _).
  rewrite Hd. clear Hd Ha.
  destruct (splitext_branches ((a0 ++ [sep]) ++ x))
    as [(s & b & Hp & _ & Hsb & -> & _) | [-> _]].
  - apply app_eq_app in Hp. destruct Hp as [k [[H1 H2] | [H1 H2]]].
    + destruct k as [| c k] using rev_ind.
      * rewrite app_nil_r in H1. cbn in H2. subst s x.
        exists [], (extsep :: b). rewrite app_nil_r. split; reflexivity.
      * exfalso. rewrite app_assoc in H1. apply app_inj_tail in H1.
        destruct H1 as [_ <-]. apply Hsb. rewrite H2.
        apply in_or_app. left. apply in_or_app. right. left; reflexivity.
    + subst s x. exists k, (extsep :: b). split; reflexivity.
  - exists x, []. rewrite app_nil_r. split; reflexivity.
Qed.

(** ** Making directories *)

Lemma grows_refl f : grows f f.
Proof. split; [reflexivity | auto]. Qed.

Lemma grows_trans f g h : grows f g -> grows g h -> grows f h.
Proof.
  intros [H1 H2] [H3 H4]. split; [etrans; eassumption | eauto].
Qed.

Lemma mkdirs_grows final absolute stack p f :
  grows f (snd (mkdirs final absolute stack p f)).
Proof.
  revert final.
  induction stack as [| c parent IH]; intros final; cbn [mkdirs];
    [apply grows_refl |].
  specialize (IH false).
  destruct (mkdirs false absolute parent p f) as [[e |] f1]; cbn [snd] in *;
    [exact IH |].
  destruct (node_at f1 (absolute, c :: parent)) as [[| c'] |] eqn:Hn;
    cbn [snd]; [exact IH | exact IH |].
  apply (grows_trans _ f1); [exact IH |]. apply node_at_None in Hn. split.
  - apply insert_subseteq. exact Hn.
  - intros l c' Hl. destruct (decide ((absolute, c :: parent) = l)) as [<- | Hne].
    + rewrite lookup_insert_eq in Hl. discriminate.
    + rewrite lookup_insert_ne in Hl by exact Hne. exact Hl.
Qed.

Lemma mkdirs_made final absolute stack p f :
  fst (mkdirs final absolute stack p f) = None ->
  node_at (snd (mkdirs final absolute stack p f)) (absolute, stack) = Some Dir.
Proof.
  destruct stack as [| c parent]; cbn [mkdirs]; [reflexivity |].
  destruct (mkdirs false absolute parent p f) as [[e |] f1]; [discriminate |].
  destruct (node_at f1 (absolute, c :: parent)) as [[| c'] |] eqn:Hn;
    cbn [fst snd]; [intros _; exact Hn | discriminate | intros _].
  unfold node_at in *. destruct (is_root (absolute, c :: parent));
    [reflexivity | apply lookup_insert_eq].
Qed.

Lemma os_makedirs_effect p w :
  grows (fs w) (fs (snd (os_makedirs p w))) /\
  (fst (os_makedirs p w) = Ret tt ->
   p <> [] /\ node_at (fs (snd (os_makedirs p w))) (locate p) = Some Dir).
Proof.
  unfold os_makedirs. case_bool_decide as Hp.
  - cbn [fst snd]. split; [apply grows_refl | discriminate].
  - pose proof (mkdirs_grows true (fst (locate p)) (snd (locate p)) p (fs w))
      as Hg.
    pose proof (mkdirs_made true (fst (locate p)) (snd (locate p)) p (fs w))
      as Hm.
    destruct (mkdirs true (fst (locate p)) (snd (locate p)) p (fs w))
      as [[e |] f1];
      cbn [fst snd] in *.
    + split; [exact Hg | discriminate].
    + split; [exact Hg |]. intros _. split; [exact Hp |].
      specialize (Hm eq_refl). destruct (locate p). exact Hm.
Qed.

(** A path that names nothing, once made a directory, was not there. *)
Lemma made_directory_was_absent f f1 p :
  stat f p = None -> grows f f1 -> p <> [] ->
  node_at f1 (locate p) = Some Dir ->
  node_at f (locate p) = None.
Proof.
  intros Hstat [Hsub Hfiles] Hp Hdir. unfold stat in Hstat.
  rewrite bool_decide_eq_false_2 in Hstat by exact Hp.
  unfold node_at in *. destruct (is_root (locate p)).
  - destruct (names_directory p); discriminate.
  - destruct (f !! locate p) as [[| c] |] eqn:Hf; [| | reflexivity].
    + destruct (names_directory p); discriminate.
    + rewrite (lookup_weaken _ _ _ _ Hf Hsub) in Hdir. discriminate.
Qed.

(** ** Saving into a directory with [keep] *)

Lemma unique_path_loop_form fuel stem ext :
  forall cur w q,
    fst (unique_path_loop fuel stem ext cur w) = Ret q ->
    q = cur \/ exists suffix,
        Forall is_alnum suffix /\ q = stem ++ u "_" ++ suffix ++ ext.
Proof.
  induction fuel as [| fuel IH]; intros cur w q.
  - destruct (stat (fs w) cur) as [nd |] eqn:Hs.
    + rewrite unique_path_loop_out_of_fuel by congruence. discriminate.
    + rewrite unique_path_loop_free by exact Hs. intros [= <-]. left; reflexivity.
  - destruct (stat (fs w) cur) as [nd |] eqn:Hs.
    + rewrite unique_path_loop_occupied by congruence. intros Hq.
      apply IH in Hq. destruct Hq as [-> | Hq]; [| right; exact Hq].
      right. exists (suffix_at w 0). split; [apply suffix_from_alnum | reflexivity].
    + rewrite unique_path_loop_free by exact Hs. intros [= <-]. left; reflexivity.
Qed.

Lemma alnum_suffix_no_sep suffix :
  Forall is_alnum suffix -> ~ In sep (u "_" ++ suffix).
Proof.
  intros Hal [H | H]; [discriminate |].
  rewrite Forall_forall in Hal. apply list_elem_of_In in H.
  apply Hal in H. apply alnum_no_sep_dot in H. destruct H as [H _].
  apply H. reflexivity.
Qed.

(** What [get_unique_path] returns for a name inside a directory is again
    a name inside that directory. *)
Lemma get_unique_path_in_dir fuel a x w q :
  a <> [] -> ~ In sep x ->
  fst (get_unique_path fuel (dir_prefix a ++ x) w) = Ret q ->
  exists y, ~ In sep y /\ q = dir_prefix a ++ y.
Proof.
  intros Ha Hx. rewrite get_unique_path_unfold. intros Hq.
  apply unique_path_loop_form in Hq.
  destruct Hq as [-> | (suffix & Hal & ->)]; [exists x; auto |].
  destruct (splitext_in_dir a x Ha Hx) as (x1 & x2 & -> & Hx12).
  cbn [fst snd]. exists (x1 ++ u "_" ++ suffix ++ x2). split.
  - subst x. intros H. apply in_app_or in H. destruct H as [H | H].
    + apply Hx. apply in_or_app. left; exact H.
    + change (u "_" ++ suffix ++ x2) with ((u "_" ++ suffix) ++ x2) in H.
      apply in_app_or in H. destruct H as [H | H].
      * exact (alnum_suffix_no_sep suffix Hal H).
      * apply Hx. apply in_or_app. right; exact H.
  - rewrite <- app_assoc. reflexivity.
Qed.

(** With [keep], saving into the directory [a] leaves the file system as
    it was or adds one file, at a free location right inside [a]. *)
Lemma save_attachment_keep_in_dir fuel a att w :
  a <> [] ->
  fs (snd (save_attachment fuel a att true w)) = fs w \/
  exists y c,
    fs w !! (fst (locate a), y :: snd (locate a)) = None /\
    fs (snd (save_attachment fuel a att true w)) =
    <[(fst (locate a), y :: snd (locate a)) := File c]> (fs w).
Proof.
  intros Ha. destruct (get_filename att) as [name |] eqn:Hn.
  - rewrite (save_attachment_named _ _ _ _ _ _ Hn). unfold bind.
    rewrite join_relative by apply re_sub_reserved_no_sep.
    destruct (get_unique_path_effect fuel
                (dir_prefix a ++ re_sub_reserved name) w) as ([n Hw] & Hret & _).
    pose proof (get_unique_path_in_dir fuel a (re_sub_reserved name) w) as Hform.
    destruct (get_unique_path fuel (dir_prefix a ++ re_sub_reserved name) w)
      as [[q | e |] w1]; cbn [fst snd] in *; subst w1;
      [| left; reflexivity | left; reflexivity].
    destruct (Hform q Ha (re_sub_reserved_no_sep name) eq_refl) as (y & Hy & ->).
    specialize (Hret _ eq_refl).
    destruct (write_payload_cases (dir_prefix a ++ y) att (advance n w))
      as [[e ->] | (Hok & r & c & ->)]; [left; reflexivity |].
    right. exists y, c. cbn [snd fs advance set_fs] in *.
    assert (Hnd : names_directory (dir_prefix a ++ y) = false).
    { unfold can_open_for_writing in Hok.
      destruct (names_directory (dir_prefix a ++ y)); [| reflexivity].
      rewrite andb_false_r in Hok. discriminate. }
    rewrite <- (locate_in_dir a y Ha Hy Hnd). split; [| reflexivity].
    apply free_location; assumption.
  - rewrite (save_attachment_unnamed _ _ _ _ _ Hn). left; reflexivity.
Qed.

(** ** The run *)

Lemma for_each_cons {A} (x : A) xs body w :
  for_each (x :: xs) body w =
  match body x w with
  | (Ret _, w') => for_each xs body w'
  | (Raise e, w') => (Raise e, w')
  | (Diverge, w') => (Diverge, w')
  end.
Proof. reflexivity. Qed.

Lemma for_each_app {A} (xs ys : list A) body w w' :
  for_each xs body w = (Ret tt, w') ->
  for_each (xs ++ ys) body w = for_each ys body w'.
Proof.
  revert w. induction xs as [| x xs IH]; intros w Hxs.
  - cbn in Hxs. injection Hxs as <-. reflexivity.
  - cbn [app]. rewrite for_each_cons in *.
    destruct (body x w) as [[[] | e |] w1]; [| discriminate | discriminate].
    apply IH. exact Hxs.
Qed.

(** A failing turn ends the loop at once. *)
Lemma for_each_raise {A} (xs : list A) x ys body w w1 w2 e :
  for_each xs body w = (Ret tt, w1) ->
  body x w1 = (Raise e, w2) ->
  for_each (xs ++ x :: ys) body w = (Raise e, w2).
Proof.
  intros Hxs Hx. rewrite (for_each_app _ _ _ _ _ Hxs), for_each_cons, Hx.
  reflexivity.
Qed.

(** A literal argument that names nothing yields no input. *)
Lemma glob_glob_missing wildcards f pattern :
  has_magic pattern = false -> stat f pattern = None ->
  glob_glob wildcards f pattern = [].
Proof. intros Hm Hs. unfold glob_glob. rewrite Hm, Hs. reflexivity. Qed.

Section MainProperties.

Variable wildcards : gmap (bool * list (list N)) Node -> str -> list str.
Variable message_from_binary_file : Content -> Exception + Message.
Variable fuel : nat.

Local Abbreviation load_message' := (load_message message_from_binary_file).
Local Abbreviation process' := (process message_from_binary_file fuel).
Local Abbreviation main' := (main wildcards message_from_binary_file fuel).
Local Abbreviation extract' := (extract fuel).
Local Abbreviation save_all' := (save_all fuel).
Local Abbreviation output_location' := (output_location fuel).

Lemma open_read_cases p w :
  (exists c, stat (fs w) p = Some (File c) /\
             read_error w (locate p) = None /\ open_read p w = (Ret c, w)) \/
  (exists e, open_read p w = (Raise e, w)).
Proof.
  unfold open_read. destruct (stat (fs w) p) as [[| c] |].
  - right. eauto.
  - destruct (read_error w (locate p)) as [e |]; [right; eauto | left; eauto].
  - right. cbv zeta.
    destruct (if names_directory p then _ else _) as [[| c] |]; eauto.
Qed.

Lemma load_message_world eml w : snd (load_message' eml w) = w.
Proof.
  unfold load_message, bind.
  destruct (open_read_cases eml w) as [(c & _ & _ & ->) | [e ->]];
    [| reflexivity].
  destruct (message_from_binary_file c); reflexivity.
Qed.

(** The ways in which line 80 or line 81 raises. *)
Lemma load_message_fails eml w :
  (stat (fs w) eml = None \/ stat (fs w) eml = Some Dir \/
   (exists c e, stat (fs w) eml = Some (File c) /\
                read_error w (locate eml) = Some e) \/
   (exists c e, stat (fs w) eml = Some (File c) /\
                message_from_binary_file c = inl e)) ->
  exists e, load_message' eml w = (Raise e, w).
Proof.
  intros Hbad. unfold load_message, bind.
  destruct (open_read_cases eml w) as [(c & Hs & Hr & ->) | [e ->]];
    [| eauto].
  destruct Hbad as [H | [H | [(c' & e & H & He) | (c' & e & H & He)]]];
    try congruence.
  assert (c' = c) by congruence. subst c'. rewrite He. eauto.
Qed.

Lemma process_unreadable args eml w e :
  load_message' eml w = (Raise e, w) ->
  process' args eml w = print_err (read_error_line eml) w.
Proof.
  intros Hl. unfold process, bind at 1, try_except, bind at 1.
  rewrite Hl. reflexivity.
Qed.

Lemma process_loaded args eml msg w :
  load_message' eml w = (Ret msg, w) ->
  process' args eml w =
  match get_attachments msg with
  | Some (a :: rest) =>
      try_except (extract' args eml (a :: rest))
        (fun err => print_err (write_error_line eml err)) w
  | _ => print (eml ++ u " (0)") w
  end.
Proof.
  intros Hl. unfold process, bind at 1, try_except at 1, bind at 1.
  rewrite Hl. cbn [ret]. destruct (get_attachments msg) as [[| a rest] |]; reflexivity.
Qed.

(** What a turn does when the write of one attachment fails. *)
Lemma process_write_failure args eml msg before a after location e w w1 w2 w3 :
  load_message' eml w = (Ret msg, w) ->
  get_attachments msg = Some (before ++ a :: after) ->
  output_location' args eml w = (Ret location, w1) ->
  save_all' args location before w1 = (Ret tt, w2) ->
  save_attachment fuel location a (keep args) w2 = (Raise e, w3) ->
  process' args eml w = print_err (write_error_line eml e) w3.
Proof.
  intros Hl Hatt Hloc Hbefore Hfail. rewrite (process_loaded _ _ _ _ Hl), Hatt.
  assert (Hex : extract' args eml (before ++ a :: after) w = (Raise e, w3)).
  { unfold extract, bind at 1. rewrite Hloc.
    unfold bind at 1, save_all.
    rewrite (for_each_raise before a after _ w1 w2 w3 e Hbefore Hfail).
    reflexivity. }
  destruct (before ++ a :: after) as [| a0 rest] eqn:Hl0.
  - destruct before; discriminate.
  - unfold try_except. rewrite Hex. reflexivity.
Qed.

(** C7, as the code has it. For a path that [glob.glob] returned for the
    arguments (a path of the expanded input list) and that names a file
    that is missing or cannot be read (nothing exists at it, it names a
    directory, the file refuses to be opened, or the parser rejects its
    content), the turn of the loop appends the read-error line to the error
    stream and does nothing else: the file system and the standard output
    stay as they were, and the run goes on with the inputs that follow. *)
Theorem unreadable_input_reported (args : Args) (eml : str) (w : World) :
  (stat (fs w) eml = None \/ stat (fs w) eml = Some Dir \/
   (exists c e, stat (fs w) eml = Some (File c) /\
                read_error w (locate eml) = Some e) \/
   (exists c e, stat (fs w) eml = Some (File c) /\
                message_from_binary_file c = inl e)) ->
  process' args eml w = (Ret tt, with_error_line (read_error_line eml) w) /\
  read_error_line eml = u "Error: " ++ eml ++ u " <failed to read file>" /\
  (forall before after w0,
     for_each before (process' args) w0 = (Ret tt, w) ->
     for_each (before ++ eml :: after) (process' args) w0 =
     for_each after (process' args)
       (with_error_line (read_error_line eml) w)) /\
  (forall before after w0,
     flat_map (glob_glob wildcards (fs w0)) (email args)
       = before ++ eml :: after ->
     for_each before (process' args) w0 = (Ret tt, w) ->
     main' args w0 =
     for_each after (process' args)
       (with_error_line (read_error_line eml) w)).
Proof.
  intros Hbad. destruct (load_message_fails eml w Hbad) as [e He].
  assert (Hp : process' args eml w
               = (Ret tt, with_error_line (read_error_line eml) w)).
  { rewrite (process_unreadable _ _ _ _ He). reflexivity. }
  assert (Hcont : forall before after w0,
            for_each before (process' args) w0 = (Ret tt, w) ->
            for_each (before ++ eml :: after) (process' args) w0 =
            for_each after (process' args)
              (with_error_line (read_error_line eml) w)).
  { intros before after w0 Hbefore.
    rewrite (for_each_app _ _ _ _ _ Hbefore), for_each_cons, Hp. reflexivity. }
  split; [exact Hp |]. split; [reflexivity |]. split; [exact Hcont |].
  intros before after w0 Hglob Hbefore. unfold main, bind. rewrite Hglob.
  apply Hcont. exact Hbefore.
Qed.

(** C6. When the write of one attachment of an input raises, the turn of
    that input ends in the world the failed write left, plus one line on the
    error stream that carries the message of the exception: the attachments
    after it are not written and no success line is printed. The turn
    returns normally and the loop goes on with the next input. *)
Theorem write_failure_isolated
    (args : Args) (eml : str) (msg : Message)
    (before : list Message) (a : Message) (after : list Message)
    (location : str) (e : Exception) (w w1 w2 w3 : World) :
  load_message' eml w = (Ret msg, w) ->
  get_attachments msg = Some (before ++ a :: after) ->
  output_location' args eml w = (Ret location, w1) ->
  save_all' args location before w1 = (Ret tt, w2) ->
  save_attachment fuel location a (keep args) w2 = (Raise e, w3) ->
  process' args eml w = (Ret tt, with_error_line (write_error_line eml e) w3) /\
  write_error_line eml e =
    u "Error: " ++ basename eml ++ u " <" ++ exc_str e ++ u ">" /\
  (forall rest,
     for_each (eml :: rest) (process' args) w =
     for_each rest (process' args)
       (with_error_line (write_error_line eml e) w3)).
Proof.
  intros Hl Hatt Hloc Hbefore Hfail.
  assert (Hp : process' args eml w
               = (Ret tt, with_error_line (write_error_line eml e) w3)).
  { rewrite (process_write_failure _ _ _ _ _ _ _ _ _ _ _ _
               Hl Hatt Hloc Hbefore Hfail). reflexivity. }
  split; [exact Hp |]. split; [reflexivity |].
  intros rest. rewrite for_each_cons, Hp. reflexivity.
Qed.

(** C10. An attachment without a file name makes [save_attachment] raise
    a [TypeError] in [sanitize_filename], in the world in which it was
    called: no file is opened, created or written and no name is made up.
    The turn of the input reports the error on the error stream and leaves
    the attachments after it unwritten. *)
Theorem missing_filename_fails
    (args : Args) (eml : str) (msg : Message)
    (before : list Message) (a : Message) (after : list Message)
    (location : str) (w w1 w2 : World) :
  load_message' eml w = (Ret msg, w) ->
  get_attachments msg = Some (before ++ a :: after) ->
  get_filename a = None ->
  output_location' args eml w = (Ret location, w1) ->
  save_all' args location before w1 = (Ret tt, w2) ->
  exc_type re_sub_type_error = TypeError /\
  sanitize_filename (get_filename a) w2 = (Raise re_sub_type_error, w2) /\
  save_attachment fuel location a (keep args) w2
    = (Raise re_sub_type_error, w2) /\
  process' args eml w =
    (Ret tt, with_error_line (write_error_line eml re_sub_type_error) w2) /\
  forall rest,
    for_each (eml :: rest) (process' args) w =
    for_each rest (process' args)
      (with_error_line (write_error_line eml re_sub_type_error) w2).
Proof.
  intros Hl Hatt Hname Hloc Hbefore.
  pose proof (save_attachment_unnamed fuel location a (keep args) w2 Hname)
    as Hfail.
  assert (Hp : process' args eml w
               = (Ret tt,
                  with_error_line (write_error_line eml re_sub_type_error) w2)).
  { rewrite (process_write_failure _ _ _ _ _ _ _ _ _ _ _ _
               Hl Hatt Hloc Hbefore Hfail). reflexivity. }
  split; [reflexivity |]. split; [rewrite Hname; reflexivity |].
  split; [exact Hfail |]. split; [exact Hp |].
  intros rest. rewrite for_each_cons, Hp. reflexivity.
Qed.

End MainProperties.

(** ** Runs with [organize] and [keep] *)

Lemma adds_files_in_refl d f : adds_files_in d f f.
Proof. split; [reflexivity | auto]. Qed.

Lemma adds_files_in_trans d f g h :
  adds_files_in d f g -> adds_files_in d g h -> adds_files_in d f h.
Proof.
  intros [H1 H2] [H3 H4]. split; [etrans; eassumption |].
  intros l c Hl. destruct (H4 l c Hl) as [Hg | Hy]; [auto | right; exact Hy].
Qed.

Lemma save_attachment_keep_adds fuel a att w :
  a <> [] ->
  adds_files_in (locate a) (fs w) (fs (snd (save_attachment fuel a att true w))).
Proof.
  intros Ha.
  destruct (save_attachment_keep_in_dir fuel a att w Ha)
    as [-> | (y & c & Hfree & ->)]; [apply adds_files_in_refl |].
  split; [apply insert_subseteq; exact Hfree |].
  intros l c' Hl.
  destruct (decide ((fst (locate a), y :: snd (locate a)) = l)) as [<- | Hne].
  - right. exists y. reflexivity.
  - left. rewrite lookup_insert_ne in Hl by exact Hne. exact Hl.
Qed.

Lemma for_each_save_keep_adds fuel a atts :
  a <> [] ->
  forall w,
    adds_files_in (locate a) (fs w)
      (fs (snd (for_each atts
                  (fun att => save_attachment fuel a att true) w))).
Proof.
  intros Ha. induction atts as [| att atts IH]; intros w.
  - apply adds_files_in_refl.
  - rewrite for_each_cons.
    pose proof (save_attachment_keep_adds fuel a att w Ha) as Hstep.
    destruct (save_attachment fuel a att true w) as [[[] | e |] w1];
      cbn [snd] in *; [| exact Hstep | exact Hstep].
    apply (adds_files_in_trans _ _ (fs w1)); [exact Hstep | apply IH].
Qed.

Lemma run_invariant_refl f : run_invariant f f.
Proof. split; [reflexivity | auto]. Qed.

Lemma node_at_weaken_None (f0 f : gmap (bool * list (list N)) Node) l :
  f0 ⊆ f -> node_at f l = None -> node_at f0 l = None.
Proof.
  unfold node_at. intros Hsub. destruct (is_root l); [auto |].
  intros Hf. destruct (f0 !! l) as [n |] eqn:H0; [| reflexivity].
  rewrite (lookup_weaken _ _ _ _ H0 Hsub) in Hf. discriminate.
Qed.

(** One input's worth of work keeps the invariant: a directory that was
    absent is made, and files are added right inside it. *)
Lemma run_invariant_step f0 f f1 g d :
  run_invariant f0 f -> grows f f1 -> node_at f d = None ->
  adds_files_in d f1 g -> run_invariant f0 g.
Proof.
  intros [H01 Hfiles] [Hsub Hdirs] Hd [Hsub' Hadds]. split.
  - etrans; [exact H01 |]. etrans; eassumption.
  - intros l c Hl. destruct (Hadds l c Hl) as [Hf1 | [y ->]].
    + apply Hfiles. apply Hdirs. exact Hf1.
    + right. exists (fst d), y, (snd d). split; [reflexivity |].
      apply (node_at_weaken_None f0 f); [exact H01 |].
      destruct d; exact Hd.
Qed.

Lemma run_invariant_grows f0 f f1 :
  run_invariant f0 f -> grows f f1 -> run_invariant f0 f1.
Proof.
  intros [H01 Hfiles] [Hsub Hdirs]. split; [etrans; eassumption |].
  intros l c Hl. apply Hfiles. apply Hdirs. exact Hl.
Qed.

Section OrganizeKeep.

Variable wildcards : gmap (bool * list (list N)) Node -> str -> list str.
Variable message_from_binary_file : Content -> Exception + Message.
Variable fuel : nat.

Local Abbreviation load_message' := (load_message message_from_binary_file).
Local Abbreviation process' := (process message_from_binary_file fuel).
Local Abbreviation main' := (main wildcards message_from_binary_file fuel).
Local Abbreviation extract' := (extract fuel).
Local Abbreviation save_all' := (save_all fuel).
Local Abbreviation output_location' := (output_location fuel).

Variable args : Args.
Hypothesis Horganize : organize args = true.
Hypothesis Hkeep : keep args = true.

Lemma output_location_organize_keep eml :
  output_location' args eml =
  (do location <- get_unique_path fuel
                    (join (u "attachments") (basename (fst (splitext eml))));
   run os_makedirs location;
   ret location).
Proof using Horganize Hkeep.
  unfold output_location. rewrite Horganize, Hkeep. reflexivity.
Qed.

Lemma output_location_fresh eml w :
  grows (fs w) (fs (snd (output_location' args eml w))) /\
  forall location,
    fst (output_location' args eml w) = Ret location ->
    location <> [] /\
    stat (fs w) location = None /\
    node_at (fs w) (locate location) = None /\
    node_at (fs (snd (output_location' args eml w))) (locate location)
      = Some Dir.
Proof using Horganize Hkeep.
  rewrite output_location_organize_keep. unfold bind.
  set (path := join (u "attachments") (basename (fst (splitext eml)))).
  destruct (get_unique_path_effect fuel path w) as ([n Hw] & Hret & _).
  destruct (get_unique_path fuel path w) as [[q | e |] w1];
    cbn [fst snd] in *; subst w1;
    [| split; [apply grows_refl | discriminate]
     | split; [apply grows_refl | discriminate]].
  specialize (Hret _ eq_refl).
  destruct (os_makedirs_effect q (advance n w)) as [Hg Hmade].
  destruct (os_makedirs q (advance n w)) as [[[] | e |] w2];
    cbn [fst snd ret] in *;
    [| split; [exact Hg | discriminate] | split; [exact Hg | discriminate]].
  split; [exact Hg |]. intros location [= <-].
  destruct (Hmade eq_refl) as [Hq Hdir].
  split; [exact Hq |]. split; [exact Hret |]. split; [| exact Hdir].
  apply (made_directory_was_absent (fs w) (fs w2) q); assumption.
Qed.

Lemma extract_keeps_invariant f0 eml atts w :
  run_invariant f0 (fs w) ->
  run_invariant f0 (fs (snd (extract' args eml atts w))).
Proof using Horganize Hkeep.
  intros Hinv. unfold extract, bind at 1.
  destruct (output_location_fresh eml w) as [Hg Hloc].
  destruct (output_location' args eml w) as [[location | e |] w1];
    cbn [fst snd] in *;
    [| apply (run_invariant_grows f0 (fs w)); assumption
     | apply (run_invariant_grows f0 (fs w)); assumption].
  destruct (Hloc _ eq_refl) as (Hne & _ & Habsent & _).
  unfold bind, save_all. rewrite Hkeep.
  pose proof (for_each_save_keep_adds fuel location atts Hne w1) as Hadds.
  destruct (for_each atts (fun att => save_attachment fuel location att true) w1)
    as [[[] | e |] w2]; cbn [snd] in *;
    apply (run_invariant_step f0 (fs w) (fs w1) _ (locate location));
    assumption.
Qed.

Lemma process_keeps_invariant f0 eml w :
  run_invariant f0 (fs w) ->
  run_invariant f0 (fs (snd (process' args eml w))).
Proof using Horganize Hkeep.
  intros Hinv.
  destruct (load_message' eml w) as [[msg | e' |] w1] eqn:Hl;
    pose proof (load_message_world message_from_binary_file eml w) as Hw;
    rewrite Hl in Hw; cbn [snd] in Hw; subst w1.
  - rewrite (process_loaded _ _ _ _ _ _ Hl).
    destruct (get_attachments msg) as [[| a rest] |]; try exact Hinv.
    unfold try_except.
    pose proof (extract_keeps_invariant f0 eml (a :: rest) w Hinv) as Hex.
    destruct (extract' args eml (a :: rest) w) as [[[] | e'' |] w2];
      exact Hex.
  - rewrite (process_unreadable _ _ _ _ _ _ Hl). exact Hinv.
  - unfold process, bind at 1, try_except, bind at 1. rewrite Hl. exact Hinv.
Qed.

Lemma for_each_process_keeps_invariant f0 emls :
  forall w,
    run_invariant f0 (fs w) ->
    run_invariant f0 (fs (snd (for_each emls (process' args) w))).
Proof using Horganize Hkeep.
  induction emls as [| eml emls IH]; intros w Hinv; [exact Hinv |].
  rewrite for_each_cons.
  pose proof (process_keeps_invariant f0 eml w Hinv) as Hstep.
  destruct (process' args eml w) as [[[] | e |] w1]; cbn [snd] in *;
    [apply IH; exact Hstep | exact Hstep | exact Hstep].
Qed.

(** C8. In a run with both flags the output directory of every input is
    what [get_unique_path] returns for attachments/stem, and it is made
    only after that. However the run ends, every entry that existed before
    it is still there unchanged, and every other file lies right inside a
    directory that did not exist before the run. *)
Theorem organize_keep_uses_fresh_directory (w : World) :
  (forall eml,
     output_location' args eml =
     (do location <- get_unique_path fuel
                       (join (u "attachments") (basename (fst (splitext eml))));
      run os_makedirs location;
      ret location)) /\
  (forall eml location,
     fst (output_location' args eml w) = Ret location ->
     stat (fs w) location = None) /\
  fs w ⊆ fs (snd (main' args w)) /\
  (forall l c,
     fs (snd (main' args w)) !! l = Some (File c) ->
     fs w !! l = Some (File c) \/ in_new_directory (fs w) l).
Proof using Horganize Hkeep.
  split; [exact output_location_organize_keep |]. split.
  - intros eml location Hloc.
    destruct (output_location_fresh eml w) as [_ H].
    destruct (H location Hloc) as (_ & Hstat & _). exact Hstat.
  - assert (Hinv : run_invariant (fs w) (fs (snd (main' args w)))).
    { unfold main, bind. apply for_each_process_keeps_invariant.
      apply run_invariant_refl. }
    destruct Hinv as [Hsub Hfiles]. split; assumption.
Qed.

End OrganizeKeep.

(** * The properties at concrete inputs *)

(** The selector on a multipart message and on a single attachment. *)
Lemma get_attachments_selects_witness :
  get_attachments message_one = Some three_parts /\
  get_attachments (plain_part (Some (u "a.txt")) [10%N])
    = Some [plain_part (Some (u "a.txt")) [10%N]].
Proof.
  split.
  - apply (proj1 (get_attachments_selects message_one)). reflexivity.
  - apply (proj1 (proj2 (get_attachments_selects
                           (plain_part (Some (u "a.txt")) [10%N])) eq_refl)).
    left. reflexivity.
Defined.


(** A forwarded message is written as the text the generator emits. *)
Lemma save_attachment_writes_by_type_witness :
  save_attachment 1 (u "attachments")
    (forwarded_part (Some (u "report.docx")) (u "Subject: hello")) true
    (world_of fs_report) =
  (Ret tt,
   set_fs (<[locate (u "attachments/report_abcde.docx")
             := File (Text (u "Subject: hello"))]> fs_report)
     (advance 5 (world_of fs_report))).
Proof.
  apply (proj2 (proj1 (save_attachment_writes_by_type 1 (u "attachments") true
           (forwarded_part (Some (u "report.docx")) (u "Subject: hello"))
           (u "report.docx") (u "attachments/report_abcde.docx")
           (world_of fs_report) (advance 5 (world_of fs_report))
           eq_refl
           ltac:(vm_compute; reflexivity) ltac:(vm_compute; reflexivity))
         eq_refl) (nested_message (u "Subject: hello")) eq_refl).
Defined.

(** Three arguments that all name existing files: [bad.eml], which the
    parser rejects, [locked.eml], which may not be read, and [two.eml]. *)
Lemma unreadable_input_reported_witness :
  flat_map (glob_glob no_wildcards (fs world_locked))
    (email (flat_args [u "bad.eml"; u "locked.eml"; u "two.eml"]))
    = [u "bad.eml"; u "locked.eml"; u "two.eml"] /\
  process example_parser 0
    (flat_args [u "bad.eml"; u "locked.eml"; u "two.eml"])
    (u "bad.eml") world_locked =
  (Ret tt, with_error_line (read_error_line (u "bad.eml")) world_locked) /\
  main no_wildcards example_parser 0
    (flat_args [u "bad.eml"; u "locked.eml"; u "two.eml"]) world_locked =
  for_each [u "locked.eml"; u "two.eml"]
    (process example_parser 0
       (flat_args [u "bad.eml"; u "locked.eml"; u "two.eml"]))
    (with_error_line (read_error_line (u "bad.eml")) world_locked) /\
  process example_parser 0
    (flat_args [u "bad.eml"; u "locked.eml"; u "two.eml"])
    (u "locked.eml")
    (with_error_line (read_error_line (u "bad.eml")) world_locked) =
  (Ret tt,
   with_error_line (read_error_line (u "locked.eml"))
     (with_error_line (read_error_line (u "bad.eml")) world_locked)).
Proof.
  assert (Hglob : flat_map (glob_glob no_wildcards (fs world_locked))
                    (email (flat_args [u "bad.eml"; u "locked.eml"; u "two.eml"]))
                  = [] ++ u "bad.eml" :: [u "locked.eml"; u "two.eml"])
    by (vm_compute; reflexivity).
  destruct (unreadable_input_reported no_wildcards example_parser 0
              (flat_args [u "bad.eml"; u "locked.eml"; u "two.eml"])
              (u "bad.eml") world_locked) as (Hturn & _ & _ & Hmain).
  { right. right. right.
    exists (Binary []), (mkExc OtherError (u "not a message")).
    split; vm_compute; reflexivity. }
  split; [exact Hglob |]. split; [exact Hturn |].
  split; [exact (Hmain [] _ world_locked Hglob eq_refl) |].
  apply (unreadable_input_reported no_wildcards example_parser 0).
  right. right. left.
  exists (Binary [2%N]), (permission_denied (u "locked.eml")).
  split; vm_compute; reflexivity.
Defined.

(** [one.eml]: the second attachment has no name, the third is not written. *)
Lemma write_failure_isolated_witness :
  process example_parser 0 (flat_args [u "one.eml"]) (u "one.eml") world_inbox =
  (Ret tt,
   with_error_line (write_error_line (u "one.eml") re_sub_type_error)
     world_inbox_saved).
Proof.
  apply (write_failure_isolated example_parser 0
           (flat_args [u "one.eml"]) (u "one.eml") message_one
           [plain_part (Some (u "a.txt")) [10%N]] (plain_part None [11%N])
           [plain_part (Some (u "c.txt")) [12%N]] (u "attachments")
           re_sub_type_error world_inbox world_inbox_dir world_inbox_saved
           world_inbox_saved).
  - vm_compute. reflexivity.
  - reflexivity.
  - vm_compute. reflexivity.
  - vm_compute. reflexivity.
  - vm_compute. reflexivity.
Defined.

(** The attachment without a name in [one.eml]. *)
Lemma missing_filename_fails_witness :
  exc_type re_sub_type_error = TypeError /\
  sanitize_filename (get_filename (plain_part None [11%N])) world_inbox_saved
    = (Raise re_sub_type_error, world_inbox_saved) /\
  save_attachment 0 (u "attachments") (plain_part None [11%N])
    (keep (flat_args [u "one.eml"])) world_inbox_saved
    = (Raise re_sub_type_error, world_inbox_saved) /\
  process example_parser 0 (flat_args [u "one.eml"]) (u "one.eml") world_inbox
    = (Ret tt,
       with_error_line (write_error_line (u "one.eml") re_sub_type_error)
         world_inbox_saved) /\
  forall rest,
    for_each (u "one.eml" :: rest)
      (process example_parser 0 (flat_args [u "one.eml"])) world_inbox =
    for_each rest (process example_parser 0 (flat_args [u "one.eml"]))
      (with_error_line (write_error_line (u "one.eml") re_sub_type_error)
         world_inbox_saved).
Proof.
  apply (missing_filename_fails example_parser 0
           (flat_args [u "one.eml"]) (u "one.eml") message_one
           [plain_part (Some (u "a.txt")) [10%N]] (plain_part None [11%N])
           [plain_part (Some (u "c.txt")) [12%N]] (u "attachments")
           world_inbox world_inbox_dir world_inbox_saved).
  - vm_compute. reflexivity.
  - reflexivity.
  - reflexivity.
  - vm_compute. reflexivity.
  - vm_compute. reflexivity.
Defined.

(** A second run on [two.eml] with both flags. *)
Lemma organize_keep_uses_fresh_directory_witness :
  fs world_after_first_run ⊆
    fs (snd (main no_wildcards example_parser 1
               (organize_keep_args [u "two.eml"]) world_after_first_run)) /\
  forall l c,
    fs (snd (main no_wildcards example_parser 1
               (organize_keep_args [u "two.eml"]) world_after_first_run)) !! l
      = Some (File c) ->
    fs world_after_first_run !! l = Some (File c) \/
    in_new_directory (fs world_after_first_run) l.
Proof.
  apply (organize_keep_uses_fresh_directory no_wildcards example_parser 1
           (organize_keep_args [u "two.eml"]) eq_refl eq_refl
           world_after_first_run).
Defined.

(** ** The scenarios of the specification, run *)

(** Default flags: the attachment lands in [attachments/] and the summary
    line is printed. *)
Example run_default_flags :
  let w := snd (main no_wildcards example_parser 0
                  (flat_args [u "two.eml"]) world_inbox) in
  fs w !! (false, [u "report.docx"; u "attachments"])
    = Some (File (Binary [9; 9]%N)) /\
  stdout w = [u "two.eml (1)"] /\ stderr w = [].
Proof. vm_compute. repeat split. Qed.

(** Running twice with both flags: the second run makes a directory of its
    own and leaves the first one alone. *)
Example run_twice_organize_keep :
  let w := snd (main no_wildcards example_parser 1
                  (organize_keep_args [u "two.eml"]) world_after_first_run) in
  fs w !! (false, [u "report.docx"; u "two"; u "attachments"])
    = Some (File (Binary [9; 9]%N)) /\
  fs w !! (false, [u "report.docx"; u "two_abcde"; u "attachments"])
    = Some (File (Binary [9; 9]%N)) /\
  stdout w = [u "two.eml (1)"; u "two.eml (1)"].
Proof. vm_compute. repeat split. Qed.

(** Running twice with [keep] only: the second copy gets a suffix and the
    first one stays. *)
Example run_twice_keep :
  let args := mkArgs [u "two.eml"] false true in
  let w1 := snd (main no_wildcards example_parser 1 args world_inbox) in
  let w2 := snd (main no_wildcards example_parser 1 args w1) in
  fs w2 !! (false, [u "report.docx"; u "attachments"])
    = Some (File (Binary [9; 9]%N)) /\
  fs w2 !! (false, [u "report_abcde.docx"; u "attachments"])
    = Some (File (Binary [9; 9]%N)) /\
  stdout w2 = [u "two.eml (1)"; u "two.eml (1)"] /\ stderr w2 = [].
Proof. vm_compute. repeat split. Qed.

(** A file that may not be read, between two others: its error line, and
    both other inputs are handled. *)
Example run_with_locked_input :
  let w := snd (main no_wildcards example_parser 0
                  (flat_args [u "bad.eml"; u "locked.eml"; u "two.eml"])
                  world_locked) in
  stdout w = [u "two.eml (1)"] /\
  stderr w = [u "Error: bad.eml <failed to read file>";
              u "Error: locked.eml <failed to read file>"] /\
  fs w !! (false, [u "report.docx"; u "attachments"])
    = Some (File (Binary [9; 9]%N)).
Proof. vm_compute. repeat split. Qed.

(** An unreadable input between two readable ones: one error line, and
    both summary lines are printed. *)
Example run_with_unreadable_input :
  let w := snd (main no_wildcards example_parser 0
                  (flat_args [u "two.eml"; u "bad.eml"; u "one.eml"])
                  world_inbox) in
  stdout w = [u "two.eml (1)"] /\
  stderr w =
    [u "Error: bad.eml <failed to read file>";
     u "Error: one.eml <expected string or bytes-like object, got 'NoneType'>"] /\
  fs w !! (false, [u "a.txt"; u "attachments"]) = Some (File (Binary [10%N])) /\
  fs w !! (false, [u "c.txt"; u "attachments"]) = None.
Proof. vm_compute. repeat split. Qed.

(** C7 as stated fails for an argument that names a missing file: an
    argument without wildcards that names nothing is expanded to no input at
    all, and the run ends without a line on either stream. *)
Lemma missing_argument_not_reported :
  stat (fs world_inbox) (u "missing.eml") = None /\
  has_magic (u "missing.eml") = false /\
  main no_wildcards example_parser 0 (flat_args [u "missing.eml"]) world_inbox
  = (Ret tt, world_inbox) /\
  stderr world_inbox = [].
Proof. vm_compute. repeat split. Qed.

(** * Further properties of the code *)

(** ** The sanitizer's output *)

Lemma re_sub_reserved_clean s : Forall not_reserved (re_sub_reserved s).
Proof.
  unfold re_sub_reserved. apply Forall_forall. intros c Hc.
  apply list_elem_of_In, in_map_iff in Hc. destruct Hc as (c0 & <- & _).
  unfold not_reserved. rewrite <- is_reserved_spec.
  destruct (is_reserved c0) eqn:Hr.
  - rewrite underscore_not_reserved. discriminate.
  - rewrite Hr. discriminate.
Qed.

Lemma re_sub_reserved_fixed s :
  Forall not_reserved s -> re_sub_reserved s = s.
Proof.
  unfold re_sub_reserved. induction 1 as [| c s Hc _ IH]; [reflexivity |].
  cbn [map]. rewrite IH. unfold not_reserved in Hc.
  rewrite <- is_reserved_spec in Hc.
  destruct (is_reserved c); [exfalso; apply Hc; reflexivity | reflexivity].
Qed.

(** X1. What [sanitize_filename] returns contains none of the reserved
    characters, and it returns its argument unchanged exactly when the
    argument contains none of them. *)
Theorem sanitize_filename_output_clean (s : str) (w : World) :
  exists t : str,
    sanitize_filename (Some s) w = (Ret t, w) /\
    Forall not_reserved t /\
    (t = s <-> Forall not_reserved s).
Proof.
  exists (re_sub_reserved s). split; [reflexivity |].
  split; [apply re_sub_reserved_clean |]. split.
  - intros <-. apply re_sub_reserved_clean.
  - apply re_sub_reserved_fixed.
Qed.

(** ** Where [save_attachment] writes *)

Lemma get_unique_path_streams fuel path w :
  stdout (snd (get_unique_path fuel path w)) = stdout w /\
  stderr (snd (get_unique_path fuel path w)) = stderr w /\
  fs (snd (get_unique_path fuel path w)) = fs w.
Proof.
  destruct (get_unique_path_effect fuel path w) as ([n ->] & _).
  repeat split.
Qed.

Lemma can_open_not_directory f p :
  can_open_for_writing f p = true ->
  names_directory p = false /\ node_at f (locate p) <> Some Dir.
Proof.
  unfold can_open_for_writing. intros H.
  apply andb_true_iff in H. destruct H as [H Hn].
  apply andb_true_iff in H. destruct H as [_ Hd].
  apply negb_true_iff in Hd. split; [exact Hd |].
  destruct (node_at f (locate p)) as [[| c] |]; discriminate.
Qed.

Lemma plain_name_in_dir a y :
  a <> [] -> ~ In sep y ->
  names_directory (dir_prefix a ++ y) = false -> plain_name y.
Proof.
  intros Ha Hy Hnd. rewrite names_directory_in_dir in Hnd by assumption.
  apply bool_decide_eq_false in Hnd. unfold plain_name. tauto.
Qed.

(** The path that [save_attachment] settles on is a name inside the
    directory. *)
Lemma settled_path_in_dir fuel a name (keep : bool) w q :
  a <> [] ->
  fst ((if keep
        then get_unique_path fuel (join a (re_sub_reserved name))
        else @ret (list N) (join a (re_sub_reserved name))) w) = Ret q ->
  exists y, ~ In sep y /\ q = dir_prefix a ++ y.
Proof.
  intros Ha. rewrite join_relative by apply re_sub_reserved_no_sep.
  destruct keep.
  - apply get_unique_path_in_dir; [exact Ha | apply re_sub_reserved_no_sep].
  - cbn. intros [= <-]. exists (re_sub_reserved name).
    split; [apply re_sub_reserved_no_sep | reflexivity].
Qed.

Lemma settled_path_world fuel a name (keep : bool) w :
  exists n,
    snd ((if keep
          then get_unique_path fuel (join a (re_sub_reserved name))
          else @ret (list N) (join a (re_sub_reserved name))) w) = advance n w.
Proof.
  destruct keep.
  - destruct (get_unique_path_effect fuel (join a (re_sub_reserved name)) w)
      as (Hn & _). exact Hn.
  - exists 0%nat. destruct w; reflexivity.
Qed.

(** X2. Whatever the file name of the attachment and whatever the flag,
    [save_attachment] prints nothing and writes through at most one path:
    the directory it was given joined with one ordinary path component (no
    separator in it, not empty, no dot and no double dot). The only change
    to the file system is the file which that path denotes, and what it
    denoted before was not a directory. *)
Theorem save_attachment_confined
    (fuel : nat) (location : str) (att : Message) (keep : bool) (w : World) :
  location <> [] ->
  stdout (snd (save_attachment fuel location att keep w)) = stdout w /\
  stderr (snd (save_attachment fuel location att keep w)) = stderr w /\
  (fs (snd (save_attachment fuel location att keep w)) = fs w \/
   exists name c,
     plain_name name /\
     node_at (fs w) (locate (join location name)) <> Some Dir /\
     fs (snd (save_attachment fuel location att keep w)) =
     <[locate (join location name) := File c]> (fs w)).
Proof.
  intros Ha. destruct (get_filename att) as [name |] eqn:Hn.
  - rewrite (save_attachment_named _ _ _ _ _ _ Hn). unfold bind.
    destruct (settled_path_world fuel location name keep w) as [n Hw].
    pose proof (settled_path_in_dir fuel location name keep w) as Hform.
    destruct ((if keep
               then get_unique_path fuel (join location (re_sub_reserved name))
               else @ret (list N) (join location (re_sub_reserved name))) w)
      as [[q | e |] w1]; cbn [fst snd] in *; subst w1;
      [| repeat split; left; reflexivity | repeat split; left; reflexivity].
    destruct (Hform q Ha eq_refl) as (y & Hy & ->).
    destruct (write_payload_streams (dir_prefix location ++ y) att (advance n w))
      as [Hout Herr].
    split; [exact Hout |]. split; [exact Herr |].
    destruct (write_payload_cases (dir_prefix location ++ y) att (advance n w))
      as [[e ->] | (Hok & r & c & ->)]; [left; reflexivity |].
    right. exists y, c. cbn [snd fs advance set_fs] in *.
    destruct (can_open_not_directory _ _ Hok) as [Hnd Hdir].
    rewrite (join_relative location y Hy).
    split; [exact (plain_name_in_dir location y Ha Hy Hnd) |].
    split; [exact Hdir | reflexivity].
  - rewrite (save_attachment_unnamed _ _ _ _ _ Hn).
    repeat split. left; reflexivity.
Qed.

(** ** Failing writes *)


(** Opening, for writing, a path that names an existing directory. *)
Lemma open_write_directory p m w :
  stat (fs w) p = Some Dir -> names_directory p = true ->
  exists e, exc_type e = IsADirectoryError /\ open_write p m w = (Raise e, w).
Proof.
  intros Hs Hnd. unfold stat in Hs. unfold open_write.
  case_bool_decide; [discriminate |]. rewrite Hnd in *.
  destruct (endswith_sep p);
    [exists (mkExc IsADirectoryError (errno_msg "[Errno 21] Is a directory" p));
     split; reflexivity |].
  destruct (node_at (fs w) (locate p)) as [[| c] |]; try discriminate.
  exists (mkExc IsADirectoryError (errno_msg "[Errno 21] Is a directory" p)).
  split; reflexivity.
Qed.

(** X3. Without [keep], an attachment whose file name is empty, a dot or
    a double dot is not written when the path joined from the output
    directory and that name leads to an existing directory (as it does when
    the output directory exists): the call raises and leaves the world as
    it was. Unless the part is a [message/rfc822] one, the exception is the
    [IsADirectoryError] of [open]. *)
Theorem save_attachment_rejects_directory_names
    (fuel : nat) (location : str) (att : Message) (name : str) (w : World) :
  location <> [] ->
  get_filename att = Some name ->
  name = [] \/ name = dot \/ name = dotdot ->
  stat (fs w) (join location name) = Some Dir ->
  exists e,
    save_attachment fuel location att false w = (Raise e, w) /\
    (get_content_type att <> u "message/rfc822" ->
     exc_type e = IsADirectoryError).
Proof.
  intros Ha Hn Hname Hstat. rewrite (save_attachment_named _ _ _ _ _ _ Hn).
  assert (Hfix : re_sub_reserved name = name)
    by (destruct Hname as [-> | [-> | ->]]; reflexivity).
  assert (Hsep : ~ In sep name)
    by (rewrite <- Hfix; apply re_sub_reserved_no_sep).
  rewrite Hfix. unfold bind at 1, ret.
  assert (Hnd : names_directory (join location name) = true).
  { rewrite (join_relative _ _ Hsep).
    rewrite names_directory_in_dir by assumption.
    apply bool_decide_eq_true. exact Hname. }
  unfold write_payload. fold (is_rfc822 att).
  destruct (is_rfc822 att) eqn:Hty.
  - unfold bind at 1, get_payload_at_0.
    destruct (get_payload_0 att) as [e | data].
    + exists e. split; [reflexivity |]. intros Hne.
      apply is_rfc822_true in Hty. contradiction.
    + cbn [ret]. unfold bind.
      destruct (open_write_directory _ ModeW w Hstat Hnd) as (e & He & ->).
      exists e. split; [reflexivity |]. intros _. exact He.
  - cbv zeta. unfold bind.
    destruct (open_write_directory _ ModeWB w Hstat Hnd) as (e & He & ->).
    exists e. split; [reflexivity |]. intros _. exact He.
Qed.

Lemma save_attachment_no_keep fuel location att name w :
  get_filename att = Some name ->
  save_attachment fuel location att false w =
  write_payload (join location (re_sub_reserved name)) att w.
Proof.
  intros Hn. rewrite (save_attachment_named _ _ _ _ _ _ Hn). reflexivity.
Qed.

(** X4. The payload is fetched before the file is opened only for a
    [message/rfc822] part. Such a part without a sub-part raises with
    nothing opened or written. Any other part whose decoded payload is
    [None] (a multipart part) raises a [TypeError] after the file was
    opened: without [keep], the file at the destination is left empty,
    whatever it held before. *)
Theorem save_attachment_failed_payload
    (fuel : nat) (location : str) (att : Message) (name : str) (w : World) :
  get_filename att = Some name ->
  (get_content_type att = u "message/rfc822" ->
   forall e, get_payload_0 att = inl e ->
     save_attachment fuel location att false w = (Raise e, w)) /\
  (get_content_type att <> u "message/rfc822" ->
   get_payload_decode att = None ->
   can_open_for_writing (fs w) (join location (re_sub_reserved name)) = true ->
   exists e,
     exc_type e = TypeError /\
     save_attachment fuel location att false w =
     (Raise e,
      set_fs (<[locate (join location (re_sub_reserved name))
                := File (Binary [])]> (fs w)) w)).
Proof.
  intros Hn. rewrite (save_attachment_no_keep _ _ _ _ _ Hn). split.
  - intros Hty e He. apply is_rfc822_true in Hty.
    unfold write_payload. fold (is_rfc822 att). rewrite Hty.
    unfold bind, get_payload_at_0. rewrite He. reflexivity.
  - intros Hty Hdata Hok. apply is_rfc822_false in Hty.
    unfold write_payload. fold (is_rfc822 att). rewrite Hty. cbv zeta.
    unfold bind. rewrite (open_write_ok _ _ _ Hok), Hdata.
    eexists. split; [| reflexivity]. reflexivity.
Qed.

(** ** The resolver, once more *)

(** X5. A successful [get_unique_path] leaves the file system and both
    streams as they were (it only consumes outcomes of the random
    generator), and what it returned is a fixed point: resolving the
    returned path again gives it back at once, whatever the bound. *)
Theorem get_unique_path_idempotent
    (fuel : nat) (path q : str) (w w' : World) :
  get_unique_path fuel path w = (Ret q, w') ->
  (exists n, w' = advance n w) /\
  fs w' = fs w /\ stdout w' = stdout w /\ stderr w' = stderr w /\
  forall fuel', get_unique_path fuel' q w' = (Ret q, w').
Proof.
  intros Hg. destruct (get_unique_path_effect fuel path w) as ([n Hw] & Hret & _).
  rewrite Hg in Hw, Hret. cbn [fst snd] in *. subst w'.
  split; [exists n; reflexivity |]. repeat (split; [reflexivity |]).
  intros fuel'. rewrite get_unique_path_unfold.
  apply unique_path_loop_free. apply (Hret q). reflexivity.
Qed.

(** ** An empty file name with [keep] *)





(** ** What a run prints and what it keeps *)

Lemma same_streams_refl w : same_streams w w.
Proof. split; reflexivity. Qed.

Lemma same_streams_trans w1 w2 w3 :
  same_streams w1 w2 -> same_streams w2 w3 -> same_streams w1 w3.
Proof. intros [H1 H2] [H3 H4]. split; congruence. Qed.

Lemma same_random_refl w : same_random w w.
Proof. split; reflexivity. Qed.

Lemma same_random_trans w1 w2 w3 :
  same_random w1 w2 -> same_random w2 w3 -> same_random w1 w3.
Proof. intros [H1 H2] [H3 H4]. split; congruence. Qed.

Lemma save_attachment_silent fuel location att (keep : bool) w :
  same_streams w (snd (save_attachment fuel location att keep w)).
Proof.
  destruct (get_filename att) as [name |] eqn:Hn.
  - rewrite (save_attachment_named _ _ _ _ _ _ Hn). unfold bind.
    destruct (settled_path_world fuel location name keep w) as [n Hw].
    destruct ((if keep
               then get_unique_path fuel (join location (re_sub_reserved name))
               else @ret (list N) (join location (re_sub_reserved name))) w)
      as [[q | e |] w1]; cbn [fst snd] in *; subst w1;
      [| split; reflexivity | split; reflexivity].
    destruct (write_payload_streams q att (advance n w)) as [Hout Herr].
    split; assumption.
  - rewrite (save_attachment_unnamed _ _ _ _ _ Hn). apply same_streams_refl.
Qed.

Lemma for_each_save_silent fuel location (keep : bool) atts :
  forall w,
    same_streams w
      (snd (for_each atts
              (fun att => save_attachment fuel location att keep) w)).
Proof.
  induction atts as [| att atts IH]; intros w; [apply same_streams_refl |].
  rewrite for_each_cons.
  pose proof (save_attachment_silent fuel location att keep w) as Hstep.
  destruct (save_attachment fuel location att keep w) as [[[] | e |] w1];
    cbn [snd] in *; [| exact Hstep | exact Hstep].
  apply (same_streams_trans _ w1); [exact Hstep | apply IH].
Qed.

Lemma os_makedirs_silent p w :
  same_streams w (snd (os_makedirs p w)) /\
  same_random w (snd (os_makedirs p w)) /\
  fst (os_makedirs p w) <> Diverge.
Proof.
  unfold os_makedirs. case_bool_decide.
  - repeat split. discriminate.
  - destruct (mkdirs _ _ _ _ _) as [[e |] f1]; repeat split; discriminate.
Qed.

Lemma write_payload_returns path att w :
  fst (write_payload path att w) <> Diverge /\
  same_random w (snd (write_payload path att w)).
Proof.
  unfold write_payload, get_payload_at_0, generator_flatten,
    write_bytes, file_write, bind, raise, ret.
  destruct (str_eqb _ _).
  - destruct (get_payload_0 att) as [e | data];
      [split; [discriminate | apply same_random_refl] |].
    destruct (open_write_cases path ModeW w) as [[_ [e ->]] | [_ ->]];
      [split; [discriminate | apply same_random_refl] |].
    cbv beta iota. destruct (flatten_raises data);
      (split; [discriminate | split; reflexivity]).
  - destruct (open_write_cases path ModeWB w) as [[_ [e ->]] | [_ ->]];
      [split; [discriminate | apply same_random_refl] |].
    cbv beta iota. destruct (get_payload_decode att);
      (split; [discriminate | split; reflexivity]).
Qed.

Lemma save_attachment_no_keep_returns fuel location att w :
  fst (save_attachment fuel location att false w) <> Diverge /\
  same_random w (snd (save_attachment fuel location att false w)).
Proof.
  destruct (get_filename att) as [name |] eqn:Hn.
  - rewrite (save_attachment_no_keep _ _ _ _ _ Hn). apply write_payload_returns.
  - rewrite (save_attachment_unnamed _ _ _ _ _ Hn).
    split; [discriminate | apply same_random_refl].
Qed.

Lemma for_each_save_no_keep_returns fuel location atts :
  forall w,
    fst (for_each atts
           (fun att => save_attachment fuel location att false) w) <> Diverge /\
    same_random w
      (snd (for_each atts
              (fun att => save_attachment fuel location att false) w)).
Proof.
  induction atts as [| att atts IH]; intros w.
  - split; [discriminate | apply same_random_refl].
  - rewrite for_each_cons.
    destruct (save_attachment_no_keep_returns fuel location att w) as [Hd Hr].
    destruct (save_attachment fuel location att false w) as [[[] | e |] w1];
      cbn [fst snd] in *; [| split; [discriminate | exact Hr] | contradiction].
    destruct (IH w1) as [Hd' Hr']. split; [exact Hd' |].
    apply (same_random_trans _ w1); assumption.
Qed.

Lemma for_each_save_keep_preserves fuel location atts :
  forall w,
    fs w ⊆ fs (snd (for_each atts
                      (fun att => save_attachment fuel location att true) w)).
Proof.
  induction atts as [| att atts IH]; intros w; [reflexivity |].
  rewrite for_each_cons.
  pose proof (save_attachment_keep_preserves fuel location att w) as Hstep.
  destruct (save_attachment fuel location att true w) as [[[] | e |] w1];
    cbn [snd] in *; [| exact Hstep | exact Hstep].
  etrans; [exact Hstep | apply IH].
Qed.

Section RunProperties.

Variable wildcards : gmap (bool * list (list N)) Node -> str -> list str.
Variable message_from_binary_file : Content -> Exception + Message.
Variable fuel : nat.

Local Abbreviation load_message' := (load_message message_from_binary_file).
Local Abbreviation process' := (process message_from_binary_file fuel).
Local Abbreviation main' := (main wildcards message_from_binary_file fuel).
Local Abbreviation extract' := (extract fuel).
Local Abbreviation save_all' := (save_all fuel).
Local Abbreviation output_location' := (output_location fuel).

Lemma load_message_returns eml w : fst (load_message' eml w) <> Diverge.
Proof.
  unfold load_message, bind.
  destruct (open_read_cases eml w) as [(c & _ & _ & ->) | [e ->]];
    [| discriminate].
  destruct (message_from_binary_file c); discriminate.
Qed.

Lemma output_location_effect args eml w :
  same_streams w (snd (output_location' args eml w)) /\
  grows (fs w) (fs (snd (output_location' args eml w))) /\
  forall location,
    fst (output_location' args eml w) = Ret location ->
    location <> [] /\
    node_at (fs (snd (output_location' args eml w))) (locate location)
      = Some Dir.
Proof.
  unfold output_location, bind.
  set (location0 := if negb (organize args) then u "attachments"
                    else join (u "attachments") (basename (fst (splitext eml)))).
  assert (Hstep : exists n,
            snd ((if organize args && keep args
                  then get_unique_path fuel location0
                  else ret location0) w) = advance n w /\
            forall e, fst ((if organize args && keep args
                            then get_unique_path fuel location0
                            else ret location0) w) <> Raise e).
  { destruct (organize args && keep args).
    - destruct (get_unique_path_effect fuel location0 w) as ([n Hn] & _ & He).
      exists n. split; assumption.
    - exists 0%nat. split; [destruct w; reflexivity | discriminate]. }
  destruct Hstep as (n & Hw & _).
  destruct ((if organize args && keep args
             then get_unique_path fuel location0 else ret location0) w)
    as [[q | e |] w1]; cbn [fst snd] in *; subst w1;
    [| split; [split; reflexivity | split; [apply grows_refl | discriminate]]
     | split; [split; reflexivity | split; [apply grows_refl | discriminate]]].
  destruct (os_makedirs_effect q (advance n w)) as [Hg Hmade].
  destruct (os_makedirs_silent q (advance n w)) as (Hs & _ & _).
  destruct (os_makedirs q (advance n w)) as [[[] | e |] w2];
    cbn [fst snd ret] in *;
    (split; [exact Hs | split; [exact Hg |]]); try discriminate.
  intros location [= <-]. apply Hmade. reflexivity.
Qed.

Lemma output_location_no_keep args eml w :
  keep args = false ->
  fst (output_location' args eml w) <> Diverge /\
  same_random w (snd (output_location' args eml w)).
Proof.
  intros Hk. unfold output_location, bind. rewrite Hk, andb_false_r.
  cbn [ret].
  destruct (os_makedirs_silent
              (if negb (organize args) then u "attachments"
               else join (u "attachments") (basename (fst (splitext eml)))) w)
    as (_ & Hr & Hd).
  destruct (os_makedirs _ w) as [[[] | e |] w2]; cbn [fst snd] in *;
    (split; [first [discriminate | exfalso; apply Hd; reflexivity] | exact Hr]).
Qed.

(** What the body of the second [try] prints: the summary line when it
    returns, and nothing otherwise. *)
Lemma extract_prints args eml atts w :
  match fst (extract' args eml atts w) with
  | Ret _ =>
      stdout (snd (extract' args eml atts w))
        = stdout w ++ [summary_line eml (length atts)] /\
      stderr (snd (extract' args eml atts w)) = stderr w
  | _ => same_streams w (snd (extract' args eml atts w))
  end.
Proof.
  destruct (extract' args eml atts w) as [r w'] eqn:He. cbn [fst snd].
  unfold extract, save_all, bind in He.
  destruct (output_location_effect args eml w) as (Hs & _ & _).
  destruct (output_location' args eml w) as [[location | e |] w1];
    cbn [fst snd] in *;
    [| injection He as <- <-; exact Hs | injection He as <- <-; exact Hs].
  pose proof (for_each_save_silent fuel location (keep args) atts w1) as Hs'.
  destruct (for_each atts _ w1) as [[[] | e |] w2]; cbn [fst snd] in *;
    [| injection He as <- <-; apply (same_streams_trans _ w1); assumption
     | injection He as <- <-; apply (same_streams_trans _ w1); assumption].
  unfold print in He. injection He as <- <-.
  destruct Hs as [H1 H2]. destruct Hs' as [H3 H4].
  unfold summary_line. cbn [stdout stderr].
  split; [rewrite H3, H1 | rewrite H4, H2]; reflexivity.
Qed.

(** What a turn of the loop has printed when it returns, and when it
    is caught in the retry loop. *)
Lemma process_line (args : Args) (eml : str) (w : World) :
  match fst (process' args eml w) with
  | Ret _ =>
      (exists n,
         stdout (snd (process' args eml w))
           = stdout w ++ [summary_line eml n] /\
         stderr (snd (process' args eml w)) = stderr w) \/
      (exists rest,
         stderr (snd (process' args eml w))
           = stderr w ++ [u "Error: " ++ rest] /\
         stdout (snd (process' args eml w)) = stdout w)
  | Raise _ => True
  | Diverge => same_streams w (snd (process' args eml w))
  end.
Proof.
  destruct (load_message' eml w) as [[msg | e' |] w1] eqn:Hl;
    pose proof (load_message_world message_from_binary_file eml w) as Hw;
    rewrite Hl in Hw; cbn [snd] in Hw; subst w1.
  - rewrite (process_loaded _ _ _ _ _ _ Hl).
    destruct (get_attachments msg) as [[| a rest] |].
    + left. exists 0%nat. split; reflexivity.
    + unfold try_except.
      pose proof (extract_prints args eml (a :: rest) w) as Hex.
      destruct (extract' args eml (a :: rest) w) as [[[] | e'' |] w2];
        cbn [fst snd] in *.
      * left. exists (length (a :: rest)). exact Hex.
      * right. destruct Hex as [H1 H2].
        exists (basename eml ++ u " <" ++ exc_str e'' ++ u ">").
        cbn [print_err fst snd stdout stderr]. split; [| exact H1].
        rewrite H2. reflexivity.
      * exact Hex.
    + left. exists 0%nat. split; reflexivity.
  - rewrite (process_unreadable _ _ _ _ _ _ Hl). right.
    exists (eml ++ u " <failed to read file>"). split; reflexivity.
  - exfalso. apply (load_message_returns eml w). rewrite Hl. reflexivity.
Qed.

(** X7. A turn of the loop that returns has printed exactly one line: the
    summary line of the input, with the number of attachments, on standard
    output, or one line that starts with Error on the error stream. A turn
    that is caught in the retry loop of [get_unique_path] has printed
    nothing. *)
Theorem process_prints_one_line (args : Args) (eml : str) (w : World) :
  (fst (process' args eml w) = Ret tt ->
   (exists n,
      stdout (snd (process' args eml w)) = stdout w ++ [summary_line eml n] /\
      stderr (snd (process' args eml w)) = stderr w) \/
   (exists rest,
      stderr (snd (process' args eml w)) = stderr w ++ [u "Error: " ++ rest] /\
      stdout (snd (process' args eml w)) = stdout w)) /\
  (fst (process' args eml w) = Diverge ->
   same_streams w (snd (process' args eml w))).
Proof.
  pose proof (process_line args eml w) as H.
  split; intros Hr; rewrite Hr in H; exact H.
Qed.

Lemma process_adds_one_line args eml w w' :
  process' args eml w = (Ret tt, w') ->
  (length (stdout w') + length (stderr w')
   = S (length (stdout w) + length (stderr w)))%nat.
Proof.
  intros Hp. pose proof (process_line args eml w) as H.
  rewrite Hp in H. cbn [fst snd] in H.
  destruct H as [(n & -> & ->) | (rest & -> & ->)];
    rewrite length_app; cbn [length]; lia.
Qed.

Lemma for_each_process_line_count args emls :
  forall w w',
    for_each emls (process' args) w = (Ret tt, w') ->
    (length (stdout w') + length (stderr w')
     = length (stdout w) + length (stderr w) + length emls)%nat.
Proof.
  induction emls as [| eml emls IH]; intros w w' Hrun.
  - cbn in Hrun. injection Hrun as <-. cbn [length]. lia.
  - rewrite for_each_cons in Hrun.
    destruct (process' args eml w) as [[[] | e |] w1] eqn:Hp;
      [| discriminate | discriminate].
    rewrite (IH _ _ Hrun), (process_adds_one_line _ _ _ _ Hp).
    cbn [length]. lia.
Qed.

(** X8. A run that returns has printed exactly one line, on one of the
    two streams, for every path of the expanded input list. *)
Theorem main_prints_one_line_per_input (args : Args) (w w' : World) :
  main' args w = (Ret tt, w') ->
  (length (stdout w') + length (stderr w')
   = length (stdout w) + length (stderr w)
     + length (flat_map (glob_glob wildcards (fs w)) (email args)))%nat.
Proof.
  unfold main, bind. apply for_each_process_line_count.
Qed.

Lemma for_each_process_preserves args emls
    (P : World -> World -> Prop) :
  (forall w, P w w) ->
  (forall w1 w2 w3, P w1 w2 -> P w2 w3 -> P w1 w3) ->
  (forall eml w, P w (snd (process' args eml w))) ->
  forall w, P w (snd (for_each emls (process' args) w)).
Proof.
  intros Hrefl Htrans Hstep. induction emls as [| eml emls IH]; intros w.
  - apply Hrefl.
  - rewrite for_each_cons. pose proof (Hstep eml w) as H.
    destruct (process' args eml w) as [[[] | e |] w1]; cbn [snd] in *;
      [| exact H | exact H].
    apply (Htrans _ w1); [exact H | apply IH].
Qed.

Lemma extract_keep_preserves args eml atts w :
  keep args = true -> fs w ⊆ fs (snd (extract' args eml atts w)).
Proof.
  intros Hk. destruct (extract' args eml atts w) as [r w'] eqn:He.
  cbn [snd]. unfold extract, save_all, bind in He. rewrite Hk in He.
  destruct (output_location_effect args eml w) as (_ & [Hg _] & _).
  destruct (output_location' args eml w) as [[location | e |] w1];
    cbn [fst snd] in *;
    [| injection He as <- <-; exact Hg | injection He as <- <-; exact Hg].
  pose proof (for_each_save_keep_preserves fuel location atts w1) as Hs.
  destruct (for_each atts _ w1) as [[[] | e |] w2]; cbn [fst snd] in *;
    injection He as <- <-; cbn [fs]; etrans; eassumption.
Qed.

Lemma process_keep_preserves args eml w :
  keep args = true -> fs w ⊆ fs (snd (process' args eml w)).
Proof.
  intros Hk.
  destruct (load_message' eml w) as [[msg | e' |] w1] eqn:Hl;
    pose proof (load_message_world message_from_binary_file eml w) as Hw;
    rewrite Hl in Hw; cbn [snd] in Hw; subst w1.
  - rewrite (process_loaded _ _ _ _ _ _ Hl).
    destruct (get_attachments msg) as [[| a rest] |]; try reflexivity.
    unfold try_except.
    pose proof (extract_keep_preserves args eml (a :: rest) w Hk) as Hex.
    destruct (extract' args eml (a :: rest) w) as [[[] | e'' |] w2];
      exact Hex.
  - rewrite (process_unreadable _ _ _ _ _ _ Hl). reflexivity.
  - exfalso. apply (load_message_returns eml w). rewrite Hl. reflexivity.
Qed.

(** X9. With [keep], with or without [organize], whatever existed before
    the run is still there with the same content after it, however the run
    ends: the run only adds entries. *)
Theorem main_keep_never_overwrites (args : Args) (w : World) :
  keep args = true ->
  fs w ⊆ fs (snd (main' args w)).
Proof.
  intros Hk. unfold main, bind.
  apply (for_each_process_preserves args _ (fun w1 w2 => fs w1 ⊆ fs w2)).
  - reflexivity.
  - intros w1 w2 w3 H1 H2. etrans; eassumption.
  - intros eml w0. apply process_keep_preserves. exact Hk.
Qed.

Lemma extract_no_keep args eml atts w :
  keep args = false ->
  fst (extract' args eml atts w) <> Diverge /\
  same_random w (snd (extract' args eml atts w)).
Proof.
  intros Hk. destruct (extract' args eml atts w) as [r w'] eqn:He.
  cbn [fst snd]. unfold extract, save_all, bind in He. rewrite Hk in He.
  destruct (output_location_no_keep args eml w Hk) as [Hd Hr].
  destruct (output_location' args eml w) as [[location | e |] w1];
    cbn [fst snd] in *;
    [| injection He as <- <-; split; [discriminate | exact Hr]
     | contradiction].
  destruct (for_each_save_no_keep_returns fuel location atts w1) as [Hd' Hr'].
  destruct (for_each atts _ w1) as [[[] | e |] w2]; cbn [fst snd] in *;
    [| injection He as <- <-; split;
       [discriminate | apply (same_random_trans _ w1); assumption]
     | contradiction].
  unfold print in He. injection He as <- <-.
  split; [discriminate |].
  destruct Hr as [H1 H2]. destruct Hr' as [H3 H4].
  split; cbn [random_tape random_pos]; congruence.
Qed.

Lemma process_no_keep args eml w :
  keep args = false ->
  fst (process' args eml w) <> Diverge /\
  same_random w (snd (process' args eml w)).
Proof.
  intros Hk.
  destruct (load_message' eml w) as [[msg | e' |] w1] eqn:Hl;
    pose proof (load_message_world message_from_binary_file eml w) as Hw;
    rewrite Hl in Hw; cbn [snd] in Hw; subst w1.
  - rewrite (process_loaded _ _ _ _ _ _ Hl).
    destruct (get_attachments msg) as [[| a rest] |];
      try (split; [discriminate | split; reflexivity]).
    unfold try_except.
    destruct (extract_no_keep args eml (a :: rest) w Hk) as [Hd Hr].
    destruct (extract' args eml (a :: rest) w) as [[[] | e'' |] w2];
      cbn [fst snd] in *; [split; [discriminate | exact Hr] | | contradiction].
    split; [discriminate |]. destruct Hr as [H1 H2].
    split; cbn [print_err snd random_tape random_pos]; assumption.
  - rewrite (process_unreadable _ _ _ _ _ _ Hl).
    split; [discriminate | split; reflexivity].
  - exfalso. apply (load_message_returns eml w). rewrite Hl. reflexivity.
Qed.

Lemma for_each_process_no_keep args emls :
  keep args = false ->
  forall w,
    fst (for_each emls (process' args) w) <> Diverge /\
    same_random w (snd (for_each emls (process' args) w)).
Proof.
  intros Hk. induction emls as [| eml emls IH]; intros w.
  - split; [discriminate | apply same_random_refl].
  - rewrite for_each_cons. destruct (process_no_keep args eml w Hk) as [Hp Hr].
    destruct (process' args eml w) as [[[] | e |] w1]; cbn [fst snd] in *;
      [| split; [discriminate | exact Hr] | contradiction].
    destruct (IH w1) as [H1 H2]. split; [exact H1 |].
    apply (same_random_trans _ w1); assumption.
Qed.

(** X10. Without [keep] the run never enters the retry loop of
    [get_unique_path]: it cannot go on for ever, and the random generator
    is never consulted. *)
Theorem main_without_keep_terminates (args : Args) (w : World) :
  keep args = false ->
  fst (main' args w) <> Diverge /\
  same_random w (snd (main' args w)).
Proof.
  intros Hk. unfold main, bind. apply for_each_process_no_keep. exact Hk.
Qed.

Lemma os_makedirs_attachments_file c w :
  node_at (fs w) (false, [u "attachments"]) = Some (File c) ->
  os_makedirs (u "attachments") w =
  (Raise (mkExc FileExistsError
            (errno_msg "[Errno 17] File exists" (u "attachments"))), w).
Proof.
  intros Hn. unfold os_makedirs.
  rewrite bool_decide_eq_false_2 by discriminate.
  change (locate (u "attachments")) with (false, [u "attachments"]).
  cbn [fst snd mkdirs]. rewrite Hn. destruct w; reflexivity.
Qed.

(** X11. When [attachments] exists as a regular file and [organize] is
    off, no attachment of any input can be saved: the turn of an input that
    has attachments ends with the [FileExistsError] of [os.makedirs]
    reported on the error stream, and the file system is left as it was. *)
Theorem attachments_is_a_regular_file
    (args : Args) (eml : str) (msg : Message) (a : Message)
    (rest : list Message) (c : Content) (w : World) :
  organize args = false ->
  node_at (fs w) (false, [u "attachments"]) = Some (File c) ->
  load_message' eml w = (Ret msg, w) ->
  get_attachments msg = Some (a :: rest) ->
  exists e,
    exc_type e = FileExistsError /\
    process' args eml w = (Ret tt, with_error_line (write_error_line eml e) w).
Proof.
  intros Ho Hn Hl Hatt. rewrite (process_loaded _ _ _ _ _ _ Hl), Hatt.
  eexists. split; [| unfold try_except, extract, bind at 1, output_location;
                     rewrite Ho; cbn [negb andb]; unfold bind, ret;
                     rewrite (os_makedirs_attachments_file c w Hn);
                     reflexivity].
  reflexivity.
Qed.

(** X12. Settling the output directory prints nothing, removes nothing
    and changes no file: it only adds directories. When it returns, the
    location it returns names a directory; without [organize] that location
    is [attachments], and with [organize] alone it is [attachments] joined
    with the base name of the input without its extension. *)
Theorem output_location_makes_directory
    (args : Args) (eml : str) (w : World) :
  same_streams w (snd (output_location' args eml w)) /\
  grows (fs w) (fs (snd (output_location' args eml w))) /\
  forall location,
    fst (output_location' args eml w) = Ret location ->
    location <> [] /\
    node_at (fs (snd (output_location' args eml w))) (locate location)
      = Some Dir /\
    (organize args = false -> location = u "attachments") /\
    (organize args = true -> keep args = false ->
     location = join (u "attachments") (basename (fst (splitext eml)))).
Proof.
  destruct (output_location_effect args eml w) as (Hs & Hg & Hret).
  split; [exact Hs |]. split; [exact Hg |].
  intros location Hloc. destruct (Hret location Hloc) as [Hne Hdir].
  split; [exact Hne |]. split; [exact Hdir |]. split.
  - intros Ho. revert Hloc. unfold output_location, bind.
    rewrite Ho. cbn [negb andb ret].
    destruct (os_makedirs (u "attachments") w) as [[[] | e |] w1];
      cbn [fst]; [intros [= <-]; reflexivity | discriminate | discriminate].
  - intros Ho Hk. revert Hloc. unfold output_location, bind.
    rewrite Ho, Hk. cbn [negb andb ret].
    destruct (os_makedirs _ w) as [[[] | e |] w1];
      cbn [fst]; [intros [= <-]; reflexivity | discriminate | discriminate].
Qed.

End RunProperties.

(** ** Saving every attachment, without [keep] *)

(** Writing a file keeps other paths that could be opened openable. *)
Lemma can_open_insert f p0 p c :
  can_open_for_writing f p0 = true ->
  can_open_for_writing f p = true ->
  can_open_for_writing (<[locate p0 := File c]> f) p = true.
Proof.
  intros H0 Hp. destruct (can_open_not_directory f p0 H0) as [_ Hnot0].
  unfold can_open_for_writing in *.
  apply andb_true_iff in Hp. destruct Hp as [Hp Hn]. rewrite Hp. cbn [andb].
  destruct (decide (locate p0 = locate p)) as [Heq | Hne].
  - rewrite <- Heq in *. unfold node_at in *.
    destruct (is_root (locate p0)); [discriminate |].
    rewrite lookup_insert_eq. reflexivity.
  - rewrite (node_at_insert_ne f _ _ _ Hne).
    destruct (node_at f (locate p)) as [[| c'] |]; [discriminate | reflexivity |].
    destruct (decide (locate p0 = (fst (locate p), tail (snd (locate p)))))
      as [Heq' | Hne'].
    + rewrite <- Heq' in Hn.
      destruct (node_at f (locate p0)) as [[| c'] |];
        [contradiction | discriminate | discriminate].
    + rewrite (node_at_insert_ne f _ _ _ Hne'). exact Hn.
Qed.

Lemma save_attachment_writable fuel location att w :
  writable_into location (fs w) att ->
  save_attachment fuel location att false w =
  (Ret tt,
   set_fs (<[locate (destination location att)
             := File (Binary (saved_bytes att))]> (fs w)) w).
Proof.
  intros (([name Hn] & Hty & [data Hdata]) & Hok).
  unfold destination, saved_name, saved_bytes in *.
  rewrite Hn, Hdata in *. cbn [default] in *.
  rewrite (save_attachment_no_keep _ _ _ _ _ Hn).
  apply write_payload_binary;
    [apply is_rfc822_false; exact Hty | exact Hdata | exact Hok].
Qed.

Lemma for_each_save_writable fuel location atts :
  forall w,
    Forall (writable_into location (fs w)) atts ->
    for_each atts (fun att => save_attachment fuel location att false) w =
    (Ret tt, set_fs (files_written location atts (fs w)) w).
Proof.
  induction atts as [| att atts IH]; intros w Hall.
  - cbn. destruct w; reflexivity.
  - rewrite for_each_cons. inversion Hall as [| ? ? Hatt Hrest]; subst.
    rewrite (save_attachment_writable fuel location att w Hatt).
    rewrite IH.
    + cbn [files_written]. rewrite set_fs_set_fs, fs_set_fs. reflexivity.
    + rewrite fs_set_fs. eapply Forall_impl; [exact Hrest |].
      intros att' [Hb Hok]. split; [exact Hb |].
      apply can_open_insert; [apply Hatt | exact Hok].
Qed.

Lemma files_written_other location atts :
  forall f l,
    (forall b, In b atts -> locate (destination location b) <> l) ->
    files_written location atts f !! l = f !! l.
Proof.
  induction atts as [| att atts IH]; intros f l Hl; [reflexivity |].
  cbn [files_written]. rewrite IH by (intros b Hb; apply Hl; right; exact Hb).
  apply lookup_insert_ne. apply Hl. left; reflexivity.
Qed.

(** A destination holds the bytes of its attachment unless a later
    attachment is written to the same place. *)
Lemma files_written_last location before att after f :
  (forall b, In b after ->
     locate (destination location b) <> locate (destination location att)) ->
  files_written location (before ++ att :: after) f
    !! locate (destination location att)
  = Some (File (Binary (saved_bytes att))).
Proof.
  intros Hafter. revert f. induction before as [| b before IH]; intros f.
  - cbn [app files_written]. rewrite files_written_other by exact Hafter.
    apply lookup_insert_eq.
  - cbn [app files_written]. apply IH.
Qed.

(** X13. Without [keep], when every attachment has a file name and a
    decoded payload, is no [message/rfc822] part, and its destination (the
    directory joined with the sanitized name) can be opened for writing,
    the loop over the attachments returns having written every payload to
    its destination, in the order of the message. A destination then holds
    the bytes of its attachment unless a later attachment was written to
    the same place, as happens when two names are equal after sanitizing. *)
Theorem save_all_writes_every_attachment
    (fuel : nat) (args : Args) (location : str) (atts : list Message)
    (w : World) :
  keep args = false ->
  Forall (writable_into location (fs w)) atts ->
  save_all fuel args location atts w =
    (Ret tt, set_fs (files_written location atts (fs w)) w) /\
  forall before att after,
    atts = before ++ att :: after ->
    (forall b, In b after ->
       locate (destination location b) <> locate (destination location att)) ->
    files_written location atts (fs w) !! locate (destination location att)
    = Some (File (Binary (saved_bytes att))).
Proof.
  intros Hk Hall. split.
  - unfold save_all. rewrite Hk. apply for_each_save_writable. exact Hall.
  - intros before att after -> Hafter. apply files_written_last. exact Hafter.
Qed.

(** ** The further properties at concrete inputs *)

(** A name with a separator and a colon in it is saved inside the
    directory all the same. *)
Lemma save_attachment_confined_witness :
  stdout (snd (save_attachment 0 (u "attachments")
                 (plain_part (Some (u "../x:y")) [7%N]) false
                 (world_of fs_report))) = [] /\
  stderr (snd (save_attachment 0 (u "attachments")
                 (plain_part (Some (u "../x:y")) [7%N]) false
                 (world_of fs_report))) = [] /\
  (fs (snd (save_attachment 0 (u "attachments")
              (plain_part (Some (u "../x:y")) [7%N]) false
              (world_of fs_report))) = fs (world_of fs_report) \/
   exists name c,
     plain_name name /\
     node_at (fs (world_of fs_report)) (locate (join (u "attachments") name))
       <> Some Dir /\
     fs (snd (save_attachment 0 (u "attachments")
                (plain_part (Some (u "../x:y")) [7%N]) false
                (world_of fs_report))) =
     <[locate (join (u "attachments") name) := File c]>
       (fs (world_of fs_report))).
Proof.
  apply (save_attachment_confined 0 (u "attachments")
           (plain_part (Some (u "../x:y")) [7%N]) false (world_of fs_report)).
  discriminate.
Defined.

Example save_attachment_traversal_name :
  fs (snd (save_attachment 0 (u "attachments")
             (plain_part (Some (u "../x:y")) [7%N]) false (world_of fs_report)))
    !! (false, [u ".._x_y"; u "attachments"]) = Some (File (Binary [7%N])).
Proof. vm_compute. reflexivity. Qed.

(** A part whose file name is a double dot, without [keep]. *)
Lemma save_attachment_rejects_directory_names_witness :
  exists e,
    save_attachment 0 (u "attachments") (plain_part (Some dotdot) [7%N]) false
      (world_of fs_report) = (Raise e, world_of fs_report) /\
    (get_content_type (plain_part (Some dotdot) [7%N]) <> u "message/rfc822" ->
     exc_type e = IsADirectoryError).
Proof.
  apply (save_attachment_rejects_directory_names 0 (u "attachments")
           (plain_part (Some dotdot) [7%N]) dotdot (world_of fs_report)).
  - discriminate.
  - reflexivity.
  - right. right. reflexivity.
  - vm_compute. reflexivity.
Defined.

(** A multipart part saved over the existing [report.docx] empties it. *)
Lemma save_attachment_failed_payload_witness :
  exists e,
    exc_type e = TypeError /\
    save_attachment 0 (u "attachments")
      (bundle_part (Some (u "report.docx"))) false (world_of fs_report) =
    (Raise e,
     set_fs (<[locate (join (u "attachments")
                         (re_sub_reserved (u "report.docx")))
               := File (Binary [])]> (fs (world_of fs_report)))
       (world_of fs_report)).
Proof.
  apply (proj2 (save_attachment_failed_payload 0 (u "attachments")
                  (bundle_part (Some (u "report.docx"))) (u "report.docx")
                  (world_of fs_report) eq_refl)).
  - vm_compute. discriminate.
  - reflexivity.
  - vm_compute. reflexivity.
Defined.

(** The path that was found for the occupied [report.docx] is returned
    again as it is. *)
Lemma get_unique_path_idempotent_witness :
  get_unique_path 1 (u "attachments/report.docx") (world_of fs_report) =
    (Ret (u "attachments/report_abcde.docx"), advance 5 (world_of fs_report)) /\
  get_unique_path 0 (u "attachments/report_abcde.docx")
    (advance 5 (world_of fs_report)) =
    (Ret (u "attachments/report_abcde.docx"), advance 5 (world_of fs_report)).
Proof.
  assert (H : get_unique_path 1 (u "attachments/report.docx")
                (world_of fs_report) =
              (Ret (u "attachments/report_abcde.docx"),
               advance 5 (world_of fs_report)))
    by (vm_compute; reflexivity).
  split; [exact H |].
  apply (get_unique_path_idempotent 1 (u "attachments/report.docx")
           (u "attachments/report_abcde.docx") (world_of fs_report)
           (advance 5 (world_of fs_report)) H).
Defined.


Example save_attachment_keep_empty_name_file :
  fs (snd (save_attachment 1 (u "attachments") (plain_part (Some []) [7%N])
             true (world_of fs_report)))
    !! (false, [u "_abcde"; u "attachments"]) = Some (File (Binary [7%N])).
Proof. vm_compute. reflexivity. Qed.

(** Three inputs, one of them unreadable and one with a nameless
    attachment: three lines. *)
Lemma main_prints_one_line_per_input_witness :
  (length (stdout (snd (main no_wildcards example_parser 0
                          (flat_args [u "two.eml"; u "bad.eml"; u "one.eml"])
                          world_inbox)))
   + length (stderr (snd (main no_wildcards example_parser 0
                            (flat_args [u "two.eml"; u "bad.eml"; u "one.eml"])
                            world_inbox)))
   = length (stdout world_inbox) + length (stderr world_inbox)
     + length (flat_map (glob_glob no_wildcards (fs world_inbox))
                 (email (flat_args [u "two.eml"; u "bad.eml"; u "one.eml"]))))%nat.
Proof.
  apply (main_prints_one_line_per_input no_wildcards example_parser 0).
  vm_compute. reflexivity.
Defined.

(** A second run with [keep] alone on the world of the first. *)
Lemma main_keep_never_overwrites_witness :
  fs world_after_first_run ⊆
  fs (snd (main no_wildcards example_parser 1
             (mkArgs [u "two.eml"; u "one.eml"] false true)
             world_after_first_run)).
Proof.
  apply (main_keep_never_overwrites no_wildcards example_parser 1
           (mkArgs [u "two.eml"; u "one.eml"] false true)
           world_after_first_run).
  reflexivity.
Defined.

(** Three inputs with [organize] alone. *)
Lemma main_without_keep_terminates_witness :
  fst (main no_wildcards example_parser 0
         (mkArgs [u "two.eml"; u "bad.eml"; u "one.eml"] true false)
         world_inbox) <> Diverge /\
  same_random world_inbox
    (snd (main no_wildcards example_parser 0
            (mkArgs [u "two.eml"; u "bad.eml"; u "one.eml"] true false)
            world_inbox)).
Proof.
  apply (main_without_keep_terminates no_wildcards example_parser 0
           (mkArgs [u "two.eml"; u "bad.eml"; u "one.eml"] true false)
           world_inbox).
  reflexivity.
Defined.

(** The turn at [two.eml] with the default flags returns. *)
Lemma process_prints_one_line_witness :
  (exists n,
     stdout (snd (process example_parser 0 (flat_args [u "two.eml"])
                    (u "two.eml") world_inbox))
       = stdout world_inbox ++ [summary_line (u "two.eml") n] /\
     stderr (snd (process example_parser 0 (flat_args [u "two.eml"])
                    (u "two.eml") world_inbox)) = stderr world_inbox) \/
  (exists rest,
     stderr (snd (process example_parser 0 (flat_args [u "two.eml"])
                    (u "two.eml") world_inbox))
       = stderr world_inbox ++ [u "Error: " ++ rest] /\
     stdout (snd (process example_parser 0 (flat_args [u "two.eml"])
                    (u "two.eml") world_inbox)) = stdout world_inbox).
Proof.
  apply (proj1 (process_prints_one_line example_parser 0
                  (flat_args [u "two.eml"]) (u "two.eml") world_inbox)).
  vm_compute. reflexivity.
Defined.

(** [two.eml] when [attachments] is a regular file. *)
Lemma attachments_is_a_regular_file_witness :
  exists e,
    exc_type e = FileExistsError /\
    process example_parser 0 (flat_args [u "two.eml"]) (u "two.eml")
      (world_of fs_blocked) =
    (Ret tt,
     with_error_line (write_error_line (u "two.eml") e) (world_of fs_blocked)).
Proof.
  apply (attachments_is_a_regular_file example_parser 0
           (flat_args [u "two.eml"]) (u "two.eml") message_two
           (plain_part (Some (u "report.docx")) [9%N; 9%N]) []
           (Binary []) (world_of fs_blocked)).
  - reflexivity.
  - vm_compute. reflexivity.
  - vm_compute. reflexivity.
  - reflexivity.
Defined.

(** The output directory of [foo.bar.eml] with [organize] alone. *)
Lemma output_location_makes_directory_witness :
  fst (output_location 0 (mkArgs [] true false) (u "mail/foo.bar.eml")
         world_inbox) = Ret (u "attachments/foo.bar") /\
  node_at (fs (snd (output_location 0 (mkArgs [] true false)
                      (u "mail/foo.bar.eml") world_inbox)))
    (locate (u "attachments/foo.bar")) = Some Dir.
Proof.
  assert (Hret : fst (output_location 0 (mkArgs [] true false)
                        (u "mail/foo.bar.eml") world_inbox)
                 = Ret (u "attachments/foo.bar"))
    by (vm_compute; reflexivity).
  split; [exact Hret |].
  apply (proj2 (proj2 (output_location_makes_directory 0 (mkArgs [] true false)
                         (u "mail/foo.bar.eml") world_inbox))
           (u "attachments/foo.bar") Hret).
Defined.

(** Two attachments with different names, saved into the existing
    [attachments]. *)
Lemma save_all_writes_every_attachment_witness :
  save_all 0 (flat_args []) (u "attachments")
    [plain_part (Some (u "a:b.txt")) [1%N];
     plain_part (Some (u "notes.txt")) [2%N]] (world_of fs_report) =
    (Ret tt,
     set_fs (files_written (u "attachments")
               [plain_part (Some (u "a:b.txt")) [1%N];
                plain_part (Some (u "notes.txt")) [2%N]]
               (fs (world_of fs_report))) (world_of fs_report)) /\
  forall before att after,
    [plain_part (Some (u "a:b.txt")) [1%N];
     plain_part (Some (u "notes.txt")) [2%N]] = before ++ att :: after ->
    (forall b, In b after ->
       locate (destination (u "attachments") b)
       <> locate (destination (u "attachments") att)) ->
    files_written (u "attachments")
      [plain_part (Some (u "a:b.txt")) [1%N];
       plain_part (Some (u "notes.txt")) [2%N]] (fs (world_of fs_report))
      !! locate (destination (u "attachments") att)
    = Some (File (Binary (saved_bytes att))).
Proof.
  apply (save_all_writes_every_attachment 0 (flat_args []) (u "attachments")
           [plain_part (Some (u "a:b.txt")) [1%N];
            plain_part (Some (u "notes.txt")) [2%N]] (world_of fs_report)).
  - reflexivity.
  - repeat constructor; try (eexists; reflexivity);
      vm_compute; (reflexivity || discriminate).
Defined.

Example save_all_two_files :
  let w := snd (save_all 0 (flat_args []) (u "attachments")
                  [plain_part (Some (u "a:b.txt")) [1%N];
                   plain_part (Some (u "notes.txt")) [2%N]]
                  (world_of fs_report)) in
  fs w !! (false, [u "a_b.txt"; u "attachments"]) = Some (File (Binary [1%N])) /\
  fs w !! (false, [u "notes.txt"; u "attachments"])
    = Some (File (Binary [2%N])).
Proof. vm_compute. split; reflexivity. Qed.

(** Two attachments whose names differ only in reserved characters are
    saved under one name: the second replaces the first. *)
Example sanitized_names_collide :
  let atts := [plain_part (Some (u "a:b.txt")) [1%N];
               plain_part (Some (u "a?b.txt")) [2%N]] in
  let w := snd (save_all 0 (flat_args []) (u "attachments") atts
                  (world_of fs_report)) in
  saved_name (plain_part (Some (u "a:b.txt")) [1%N]) = u "a_b.txt" /\
  saved_name (plain_part (Some (u "a?b.txt")) [2%N]) = u "a_b.txt" /\
  fs w !! (false, [u "a_b.txt"; u "attachments"]) = Some (File (Binary [2%N])).
Proof. vm_compute. repeat split. Qed.
